(** * NostrSystem: relay pool, query registry, snapshot publisher, janitor

    A shallow embedding of [class NostrSystem] (the relay connection pool,
    the registry of active queries, the snapshot/observer interface and the
    clean-up loop) together with the properties its specification states.

    Conventions of the embedding.
    - A JavaScript [Map] is an insertion-ordered association list without
      duplicate keys ([JsMap]); iteration order is list order.
    - Objects that are shared by reference (result stores) live in a heap
      and are named by their index ([StoreRef]).
    - Calls that leave the class (methods of [Connection], [Query] and
      [NoteStore], the console, observer callbacks) are recorded, in program
      order, in an effect log carried by the system state.
    - The clock ([unixNowMs]) is an explicit argument. *)

From Stdlib Require Import List String Ascii ZArith Arith Bool Lia.
Import ListNotations.
Local Open Scope string_scope.
Local Open Scope list_scope.
Set Warnings "-register-all".

(** ** Insertion-ordered maps with string keys (JavaScript [Map]) *)

Module JsMap.

Definition t (V : Type) : Type := list (string * V).

Definition empty {V} : t V := [].

Fixpoint get {V} (k : string) (m : t V) : option V :=
  match m with
  | [] => None
  | (k', v) :: m' => if String.eqb k k' then Some v else get k m'
  end.

Definition has {V} (k : string) (m : t V) : bool :=
  match get k m with Some _ => true | None => false end.

(** [set] keeps the position of an existing key and appends a new one. *)
Fixpoint set {V} (k : string) (v : V) (m : t V) : t V :=
  match m with
  | [] => [(k, v)]
  | (k', v') :: m' =>
      if String.eqb k k' then (k', v) :: m' else (k', v') :: set k v m'
  end.

Fixpoint delete {V} (k : string) (m : t V) : t V :=
  match m with
  | [] => []
  | (k', v') :: m' =>
      if String.eqb k k' then m' else (k', v') :: delete k m'
  end.

Definition keys {V} (m : t V) : list string := map fst m.

Definition values {V} (m : t V) : list V := map snd m.

(** Number of entries stored under key [k]. *)
Definition count {V} (k : string) (m : t V) : nat :=
  List.length (filter (fun e => String.eqb k (fst e)) m).

(** Well-formedness: every key occurs once. *)
Definition wf {V} (m : t V) : Prop := NoDup (keys m).

End JsMap.

(** ** Data model *)

(** Modelled from the spec: the type [RawReqFilter] is declared in the
    [@snort/nostr] package, which lies outside the files verified here; the
    specification describes a filter as an immutable structured predicate
    over kind, authors, tags, time range and limit. *)
Record RawReqFilter : Type := mkFilter {
  kinds : list Z;
  authors : list string;
  tags : list (string * list string);
  since : option Z;
  until : option Z;
  limit : option Z
}.

(** An event as delivered by a relay ([TaggedRawEvent]), with the fields
    that the cache layer reads from it. *)
Record TaggedRawEvent : Type := mkEvent {
  ev_id : string;
  ev_pubkey : string;
  ev_created_at : Z;
  ev_kind : Z;
  ev_content : string
}.

(** Modelled from the spec: the [NoteStore] classes are declared in
    [NoteCollection], which lies outside the files verified here.  A store
    carries the [loading] flag that the registry sets and receives events
    through [add]; the variant-specific deduplication is not modelled, the
    store records every event handed to [add]. *)
Record NoteStore : Type := mkStore {
  loading : bool;
  added : list TaggedRawEvent
}.

(** A store object is named by its position in the heap of stores. *)
Definition StoreRef : Type := nat.

Record RelaySettings : Type := mkSettings {
  read : bool;
  write : bool
}.

(** Modelled from the spec: class [Connection] is declared in the
    [@snort/nostr] package, which lies outside the files verified here.  Of
    its attributes the pool uses the address, the settings (read and write
    capability flags), which [ConnectToRelay] overwrites, and the ephemeral
    flag; authentication and socket state play no part here. *)
Record Connection : Type := mkConnection {
  Address : string;
  Settings : RelaySettings;
  Ephemeral : bool
}.

(** Modelled from the spec: class [Query] is declared in [./Query], which
    lies outside the files verified here.  Its attributes follow the
    specification: id, current filter set, ordered list of continuation
    sub-queries, optional closingAt timestamp, leaveOpen flag, optional relay
    allow-list and the owning reference to a store. *)
Inductive Query : Type := mkQuery {
  id : string;
  filters : list RawReqFilter;
  subQueries : list Query;
  leaveOpen : bool;
  relays : list string;
  closingAt : option Z;
  feed : StoreRef
}.

(** Modelled from the spec: [new Query(id, filters, feed)]; a new query is
    open, has no sub-queries, no relay allow-list and [leaveOpen] unset. *)
Definition new_Query (i : string) (fs : list RawReqFilter) (f : StoreRef) : Query :=
  {| id := i; filters := fs; subQueries := []; leaveOpen := false;
     relays := []; closingAt := None; feed := f |}.

(** Modelled from the spec: the [closing] getter of [Query]; a query is
    closing while it has a closingAt timestamp. *)
Definition closing (q : Query) : bool :=
  match closingAt q with Some _ => true | None => false end.

(** Modelled from the spec: [Query.cancel], "sets closingAt=now unless
    leaveOpen is set". *)
Definition cancel (now : Z) (q : Query) : Query :=
  if leaveOpen q then q
  else {| id := id q; filters := filters q; subQueries := subQueries q;
          leaveOpen := leaveOpen q; relays := relays q;
          closingAt := Some now; feed := feed q |}.

(** Modelled from the spec: [Query.unCancel], "reverts Pending-Close to
    Open". *)
Definition unCancel (q : Query) : Query :=
  {| id := id q; filters := filters q; subQueries := subQueries q;
     leaveOpen := leaveOpen q; relays := relays q;
     closingAt := None; feed := feed q |}.

Record RequestOptions : Type := mkOptions {
  opt_leaveOpen : option bool;
  opt_relays : option (list string);
  opt_skipDiff : option bool
}.

(** A [RequestBuilder] as the registry sees it: its id, the filter set that
    [build()] returns, and its options. *)
Record RequestBuilder : Type := mkRequest {
  rb_id : string;
  rb_build : list RawReqFilter;
  rb_options : option RequestOptions
}.

Record SnapshotEntry : Type := mkEntry {
  snap_id : string;
  snap_filters : list RawReqFilter;
  snap_subFilters : list RawReqFilter;
  snap_closing : bool
}.

Record SystemSnapshot : Type := mkSnapshot {
  queries : list SnapshotEntry
}.

(** An observer callback.  Callbacks are compared by reference ([===]), so a
    callback has an identity [cb_ref]; its body may call the release
    functions that [hook] returned, and [cb_releases] lists, in call order,
    the callbacks whose release function it calls.  Callbacks that register
    observers or re-enter the registry are outside this model. *)
Record HookSystemSnapshot : Type := mkHook {
  cb_ref : nat;
  cb_releases : list nat
}.

(** Calls that leave [NostrSystem], in program order. *)
Inductive Effect : Type :=
| NewConnection (addr : string) (settings : RelaySettings) (ephemeral : bool)
| Connect (addr : string)
| Close (addr : string)
| SendToRelay (qid : string) (fs : list RawReqFilter) (addr : string)
| SendClose (qid : string)
| Eose (qid : string) (sub : string) (addr : string)
| SendEvent (addr : string) (ev : TaggedRawEvent)
| SendAsync (addr : string) (ev : TaggedRawEvent)
| Publish (snap : SystemSnapshot)
| Notify (cb : nat)
| ConsoleError
| ConsoleDebug (k : string).

Record NostrSystem : Type := mkSystem {
  Sockets : JsMap.t Connection;
  Queries : JsMap.t Query;
  stateHooks : list HookSystemSnapshot;
  snapshot : SystemSnapshot;
  stores : list NoteStore;
  log : list Effect
}.

(** The state built by the constructor, before its first clean-up pass. *)
Definition new_NostrSystem : NostrSystem :=
  {| Sockets := JsMap.empty; Queries := JsMap.empty; stateHooks := [];
     snapshot := {| queries := [] |}; stores := []; log := [] |}.

(** ** Strings: the sub-query suffix and decimal numerals *)

Definition is_digit (c : ascii) : bool :=
  (48 <=? nat_of_ascii c)%nat && (nat_of_ascii c <=? 57)%nat.

Fixpoint all_digits (s : string) : bool :=
  match s with
  | EmptyString => true
  | String c r => is_digit c && all_digits r
  end.

(** The regular expression [/-\d+$/i] tried at the first character of [s]:
    a dash, then one or more digits, then the end of the input. *)
Definition subFilterId_at (s : string) : bool :=
  match s with
  | EmptyString => false
  | String c r => Ascii.eqb c "-" && negb (String.eqb r "") && all_digits r
  end.

(** [sub.match(subFilterId)]: the expression matches at some position. *)
Fixpoint subFilterId_match (s : string) : bool :=
  subFilterId_at s ||
  match s with
  | EmptyString => false
  | String _ r => subFilterId_match r
  end.

(** [sub.split(subFilterId)[0]]: the text before the leftmost match, the
    whole string when there is none. *)
Fixpoint split_first (s : string) : string :=
  if subFilterId_at s then EmptyString
  else match s with
       | EmptyString => EmptyString
       | String c r => String c (split_first r)
       end.

Definition digit_char (d : nat) : ascii := ascii_of_nat (48 + d).

Fixpoint digits_loop (fuel n : nat) (acc : string) : string :=
  match fuel with
  | O => acc
  | S fuel' =>
      let acc' := String (digit_char (n mod 10)) acc in
      if (n / 10 =? 0)%nat then acc' else digits_loop fuel' (n / 10) acc'
  end.

(** The decimal numeral that a template literal prints for a natural
    number ([`${n}`]). *)
Definition Number_toString (n : nat) : string := digits_loop (S n) n EmptyString.

(** ** Heap of stores *)

Definition new_store (type : NoteStore) (s : NostrSystem) : StoreRef * NostrSystem :=
  (List.length (stores s),
   {| Sockets := Sockets s; Queries := Queries s; stateHooks := stateHooks s;
      snapshot := snapshot s; stores := stores s ++ [type]; log := log s |}).

Fixpoint update_nth {A} (n : nat) (f : A -> A) (l : list A) : list A :=
  match l, n with
  | [], _ => []
  | x :: l', O => f x :: l'
  | x :: l', S n' => x :: update_nth n' f l'
  end.

Definition with_stores (st : list NoteStore) (s : NostrSystem) : NostrSystem :=
  {| Sockets := Sockets s; Queries := Queries s; stateHooks := stateHooks s;
     snapshot := snapshot s; stores := st; log := log s |}.

Definition with_Queries (qs : JsMap.t Query) (s : NostrSystem) : NostrSystem :=
  {| Sockets := Sockets s; Queries := qs; stateHooks := stateHooks s;
     snapshot := snapshot s; stores := stores s; log := log s |}.

Definition with_Sockets (cs : JsMap.t Connection) (s : NostrSystem) : NostrSystem :=
  {| Sockets := cs; Queries := Queries s; stateHooks := stateHooks s;
     snapshot := snapshot s; stores := stores s; log := log s |}.

Definition with_stateHooks (hs : list HookSystemSnapshot) (s : NostrSystem) : NostrSystem :=
  {| Sockets := Sockets s; Queries := Queries s; stateHooks := hs;
     snapshot := snapshot s; stores := stores s; log := log s |}.

(** Append effects to the log. *)
Definition emit (es : list Effect) (s : NostrSystem) : NostrSystem :=
  {| Sockets := Sockets s; Queries := Queries s; stateHooks := stateHooks s;
     snapshot := snapshot s; stores := stores s; log := log s ++ es |}.

(** [store.loading = b] *)
Definition set_loading (r : StoreRef) (b : bool) (s : NostrSystem) : NostrSystem :=
  with_stores
    (update_nth r (fun st => {| loading := b; added := added st |}) (stores s)) s.

(** [store.add(ev)] *)
Definition store_add (r : StoreRef) (ev : TaggedRawEvent) (s : NostrSystem) : NostrSystem :=
  with_stores
    (update_nth r (fun st => {| loading := loading st; added := added st ++ [ev] |})
       (stores s)) s.

(** ** Observers: [hook], its release function, and [#changed] *)

(** [this.#stateHooks.findIndex(a => a === cb)]; [None] stands for [-1]. *)
Fixpoint findIndex (cb : nat) (hs : list HookSystemSnapshot) : option nat :=
  match hs with
  | [] => None
  | h :: hs' =>
      if (cb_ref h =? cb)%nat then Some O
      else match findIndex cb hs' with
           | Some i => Some (S i)
           | None => None
           end
  end.

Fixpoint remove_at {A} (i : nat) (l : list A) : list A :=
  match l, i with
  | [], _ => []
  | _ :: l', O => l'
  | x :: l', S i' => x :: remove_at i' l'
  end.

(** [arr.splice(idx, 1)]: a negative start counts from the end, so index
    [-1] removes the last element. *)
Definition splice1 {A} (idx : option nat) (l : list A) : list A :=
  match idx with
  | Some i => remove_at i l
  | None => removelast l
  end.

(** The function that [hook(cb)] returns, applied to the observer list. *)
Definition release (cb : nat) (hs : list HookSystemSnapshot) : list HookSystemSnapshot :=
  splice1 (findIndex cb hs) hs.

(** Running the body of an observer callback. *)
Definition run_callback (h : HookSystemSnapshot) (hs : list HookSystemSnapshot)
  : list HookSystemSnapshot :=
  fold_left (fun l cb => release cb l) (cb_releases h) hs.

(** [for (const h of this.#stateHooks) h()]: the array iterator reads the
    live array at an increasing index and stops when the index reaches the
    current length.  The result is the final observer list and the
    callbacks that were called, in call order. *)
Fixpoint notify_loop (fuel i : nat) (hs : list HookSystemSnapshot)
  : list HookSystemSnapshot * list nat :=
  match fuel with
  | O => (hs, [])
  | S fuel' =>
      match nth_error hs i with
      | None => (hs, [])
      | Some h =>
          let '(hs', called) := notify_loop fuel' (S i) (run_callback h hs) in
          (hs', cb_ref h :: called)
      end
  end.

(** Callbacks only remove observers, so the loop body runs at most once per
    element of the initial list. *)
Definition notify_round (hs : list HookSystemSnapshot)
  : list HookSystemSnapshot * list nat :=
  notify_loop (List.length hs) 0 hs.

Definition hook (cb : HookSystemSnapshot) (s : NostrSystem) : NostrSystem :=
  with_stateHooks (stateHooks s ++ [cb]) s.

(** Calling the release function of [cb] outside a notification round. *)
Definition hook_release (cb : nat) (s : NostrSystem) : NostrSystem :=
  with_stateHooks (release cb (stateHooks s)) s.

Definition getSnapshot (s : NostrSystem) : SystemSnapshot := snapshot s.

Definition snapshot_entry (a : Query) : SnapshotEntry :=
  {| snap_id := id a;
     snap_filters := filters a;
     snap_closing := closing a;
     snap_subFilters := List.concat (map filters (subQueries a)) |}.

Definition build_snapshot (qs : JsMap.t Query) : SystemSnapshot :=
  {| queries := map snapshot_entry (JsMap.values qs) |}.

(** [#changed()] *)
Definition changed (s : NostrSystem) : NostrSystem :=
  let snap := build_snapshot (Queries s) in
  let '(hs', called) := notify_round (stateHooks s) in
  {| Sockets := Sockets s; Queries := Queries s; stateHooks := hs';
     snapshot := snap; stores := stores s;
     log := log s ++ Publish snap :: map Notify called |}.

(** ** FilterDiffEngine *)

Definition RawReqFilter_eq_dec (a b : RawReqFilter) : {a = b} + {a <> b}.
Proof.
  decide equality;
    repeat first
      [ apply Z.eq_dec | apply string_dec | apply list_eq_dec
      | decide equality ].
Defined.

Record FilterDiff : Type := mkDiff { diff_changed : bool }.

(** Modelled from the spec: [diffFilters] is declared in
    [./RequestSplitter], which lies outside the files verified here.  The
    specification gives it as structural equality over the ordered filter
    list: any difference in filter count, field values or order counts as
    changed. *)
Definition diffFilters (old new : list RawReqFilter) : FilterDiff :=
  {| diff_changed :=
       if list_eq_dec RawReqFilter_eq_dec old new then false else true |}.

(** ** The query registry *)

(** [GetQuery(sub)] *)
Definition GetQuery (sub : string) (s : NostrSystem) : option Query :=
  let sub := if subFilterId_match sub then split_first sub else sub in
  JsMap.get sub (Queries s).

(** [OnEvent(sub, ev)]: a store object is always truthy, so the guard
    [q?.feed] only tests that the query was found. *)
Definition OnEvent (sub : string) (ev : TaggedRawEvent) (s : NostrSystem) : NostrSystem :=
  match GetQuery sub s with
  | Some q => store_add (feed q) ev s
  | None => s
  end.

(** [OnEndOfStoredEvents(c, sub)]; the call [q.eose(sub, c)] is recorded. *)
Definition OnEndOfStoredEvents (c : Connection) (sub : string) (s : NostrSystem)
  : NostrSystem :=
  match GetQuery sub s with
  | Some q => emit [Eose (id q) sub (Address c)] s
  | None => s
  end.

(** [q.sendToRelay(c)], recorded with the id and the filters of [q]. *)
Definition sendToRelay (q : Query) (c : Connection) : Effect :=
  SendToRelay (id q) (filters q) (Address c).

(** [SendQuery(q)] *)
Definition SendQuery (q : Query) (s : NostrSystem) : NostrSystem :=
  emit (map (sendToRelay q) (JsMap.values (Sockets s))) s.

(** The [OnConnected] callback that the pool installs on a connection. *)
Definition OnConnected (c : Connection) (s : NostrSystem) : NostrSystem :=
  emit (map (fun q => sendToRelay q c) (JsMap.values (Queries s))) s.

(** [BroadcastEvent(ev)] *)
Definition BroadcastEvent (ev : TaggedRawEvent) (s : NostrSystem) : NostrSystem :=
  emit (map (fun c => SendEvent (Address c) ev) (JsMap.values (Sockets s))) s.

Definition truthy_bool (o : option bool) : bool :=
  match o with Some true => true | _ => false end.

Definition skipDiff (req : RequestBuilder) : bool :=
  match rb_options req with
  | Some o => truthy_bool (opt_skipDiff o)
  | None => false
  end.

(** [rb.options?.leaveOpen], as a condition. *)
Definition request_leaveOpen (rb : RequestBuilder) : bool :=
  match rb_options rb with
  | Some o => truthy_bool (opt_leaveOpen o)
  | None => false
  end.

(** [rb.options?.relays]; an array is truthy even when it is empty. *)
Definition request_relays (rb : RequestBuilder) : option (list string) :=
  match rb_options rb with
  | Some o => opt_relays o
  | None => None
  end.

(** The query object that [AddQuery] builds for [rb] around [store]. *)
Definition query_of_request (rb : RequestBuilder) (store : StoreRef) : Query :=
  let q := new_Query (rb_id rb) (rb_build rb) store in
  let q :=
    if request_leaveOpen rb
    then {| id := id q; filters := filters q; subQueries := subQueries q;
            leaveOpen := true; relays := relays q;
            closingAt := closingAt q; feed := feed q |}
    else q in
  match request_relays rb with
  | Some rs =>
      {| id := id q; filters := filters q; subQueries := subQueries q;
         leaveOpen := leaveOpen q; relays := rs;
         closingAt := closingAt q; feed := feed q |}
  | None => q
  end.

(** [AddQuery(type, rb)]; [type] is given as the store that [new type()]
    constructs. *)
Definition AddQuery (type : NoteStore) (rb : RequestBuilder) (s : NostrSystem)
  : StoreRef * NostrSystem :=
  let '(store, s) := new_store type s in
  let q := query_of_request rb store in
  let s := with_Queries (JsMap.set (rb_id rb) q (Queries s)) s in
  let s := SendQuery q s in
  let s := changed s in
  (store, s).

(** [Query(type, req)]: the submit operation of the registry.  The query
    object found in the map is mutated in place, which is a [set] under its
    (existing) key here. *)
Definition NostrSystem_Query (type : NoteStore) (req : option RequestBuilder)
  (s : NostrSystem) : StoreRef * NostrSystem :=
  match req with
  | None => new_store type s
  | Some req =>
      match JsMap.get (rb_id req) (Queries s) with
      | Some q =>
          let filters' := rb_build req in
          let q := unCancel q in
          let diff := diffFilters (filters q) filters' in
          if negb (diff_changed diff) && negb (skipDiff req) then
            let s := with_Queries (JsMap.set (rb_id req) q (Queries s)) s in
            let s := changed s in
            (feed q, s)
          else
            let subQ :=
              new_Query
                (id q ++ "-" ++ Number_toString (List.length (subQueries q) + 1))%string
                filters' (feed q) in
            let q :=
              {| id := id q; filters := filters';
                 subQueries := subQueries q ++ [subQ];
                 leaveOpen := leaveOpen q; relays := relays q;
                 closingAt := closingAt q; feed := feed q |} in
            let s := with_Queries (JsMap.set (rb_id req) q (Queries s)) s in
            let s := set_loading (feed q) true s in
            let s := SendQuery subQ s in
            let s := changed s in
            (feed q, s)
      | None => AddQuery type req s
      end
  end.

(** [CancelQuery(sub)]; [now] is the clock read by [Query.cancel]. *)
Definition CancelQuery (now : Z) (sub : string) (s : NostrSystem) : NostrSystem :=
  match JsMap.get sub (Queries s) with
  | Some q => with_Queries (JsMap.set sub (cancel now q) (Queries s)) s
  | None => s
  end.

(** The guard [v.closingAt && v.closingAt < now]: an absent timestamp and
    the number 0 are falsy. *)
Definition past_due (now : Z) (v : Query) : bool :=
  match closingAt v with
  | Some t => negb (t =? 0)%Z && (t <? now)%Z
  | None => false
  end.

(** One iteration of the loop of [#cleanup] for the entry [(k, v)]. *)
Definition cleanup_step (now : Z) (acc : NostrSystem * bool) (kv : string * Query)
  : NostrSystem * bool :=
  let '(s, changed_flag) := acc in
  let '(k, v) := kv in
  if past_due now v then
    (emit [SendClose (id v); ConsoleDebug k]
       (with_Queries (JsMap.delete k (Queries s)) s), true)
  else (s, changed_flag).

(** [#cleanup()]: one tick of the clean-up loop at time [now].  Deleting
    the entry being visited does not disturb the iteration of a [Map], so
    the loop visits the entries present when it starts.  The tick ends by
    scheduling the next one ([setTimeout], 1000 ms); the scheduler is the
    caller of this function here. *)
Definition cleanup (now : Z) (s : NostrSystem) : NostrSystem :=
  let '(s', changed_flag) := fold_left (cleanup_step now) (Queries s) (s, false) in
  if changed_flag then changed s' else s'.

(** ** The connection pool *)

Section Pool.

(** [sanitizeRelayUrl] is imported from [Util], which lies outside the
    files verified here; it yields the normalised address, or nothing for an
    address that cannot be normalised. *)
Variable sanitizeRelayUrl : string -> option string.

(** [ConnectToRelay(address, options)]; [connect_ok] tells whether the
    promise of [c.Connect()] is fulfilled.  [unwrap] throws on a missing
    value and the handler logs the exception. *)
Definition ConnectToRelay (connect_ok : bool) (address : string)
  (options : RelaySettings) (s : NostrSystem) : NostrSystem :=
  match sanitizeRelayUrl address with
  | None => emit [ConsoleError] s
  | Some addr =>
      if negb (JsMap.has addr (Sockets s)) then
        let c := {| Address := addr; Settings := options; Ephemeral := false |} in
        let s := emit [NewConnection addr options false] s in
        let s := with_Sockets (JsMap.set addr c (Sockets s)) s in
        let s := emit [Connect addr] s in
        if connect_ok then s else emit [ConsoleError] s
      else
        match JsMap.get addr (Sockets s) with
        | Some c =>
            with_Sockets
              (JsMap.set addr
                 {| Address := Address c; Settings := options;
                    Ephemeral := Ephemeral c |} (Sockets s)) s
        | None => emit [ConsoleError] s
        end
  end.

(** [ConnectEphemeralRelay(address)] *)
Definition ConnectEphemeralRelay (connect_ok : bool) (address : string)
  (s : NostrSystem) : option Connection * NostrSystem :=
  match sanitizeRelayUrl address with
  | None => (None, emit [ConsoleError] s)
  | Some addr =>
      if negb (JsMap.has addr (Sockets s)) then
        let opts := {| read := true; write := false |} in
        let c := {| Address := addr; Settings := opts; Ephemeral := true |} in
        let s := emit [NewConnection addr opts true] s in
        let s := with_Sockets (JsMap.set addr c (Sockets s)) s in
        let s := emit [Connect addr] s in
        if connect_ok then (Some c, s) else (None, emit [ConsoleError] s)
      else (None, s)
  end.

End Pool.

(** [DisconnectRelay(address)]: the map is searched under the address as
    given. *)
Definition DisconnectRelay (address : string) (s : NostrSystem) : NostrSystem :=
  match JsMap.get address (Sockets s) with
  | Some c => emit [Close (Address c)] (with_Sockets (JsMap.delete address (Sockets s)) s)
  | None => s
  end.

(** ** [WriteOnceToRelay]: an event-driven model of the promise

    The body of the promise runs at time 0: it creates an ephemeral
    write-only connection, arms a 5000 ms timer whose callback is [reject],
    installs [OnConnected] and calls [Connect].  What happens next is driven
    by the environment: the connection may report that it is connected, and
    the promise of [SendAsync] may be fulfilled.  Times are milliseconds
    since the call. *)

Inductive PromiseState : Type := Pending | Fulfilled | Rejected.

Inductive WriteEvent : Type :=
| Connected   (* [c.OnConnected] is called *)
| Sent.       (* the promise of [c.SendAsync(ev)] is fulfilled *)

Record WriteOnce : Type := mkWriteOnce {
  w_address : string;
  w_event : TaggedRawEvent;
  timer : option Z;          (* deadline of the armed timer *)
  promise : PromiseState;
  settledAt : option Z;
  awaiting : nat;            (* calls of [OnConnected] suspended at [await] *)
  w_log : list Effect
}.

Definition write_timeout : Z := 5000.

Definition WriteOnce_start (address : string) (ev : TaggedRawEvent) : WriteOnce :=
  {| w_address := address; w_event := ev;
     timer := Some write_timeout; promise := Pending; settledAt := None;
     awaiting := 0;
     w_log := [NewConnection address {| read := false; write := true |} true;
               Connect address] |}.

(** [resolve()] and [reject()] settle a pending promise and do nothing to a
    settled one. *)
Definition settle (p : PromiseState) (t : Z) (w : WriteOnce) : WriteOnce :=
  match promise w with
  | Pending =>
      {| w_address := w_address w; w_event := w_event w; timer := timer w;
         promise := p; settledAt := Some t; awaiting := awaiting w;
         w_log := w_log w |}
  | _ => w
  end.

(** The timer callback, at the deadline. *)
Definition fire_timer (w : WriteOnce) : WriteOnce :=
  match timer w with
  | Some d =>
      settle Rejected d
        {| w_address := w_address w; w_event := w_event w; timer := None;
           promise := promise w; settledAt := settledAt w;
           awaiting := awaiting w; w_log := w_log w |}
  | None => w
  end.

(** A timer whose deadline has passed runs before an event at time [t]. *)
Definition advance (t : Z) (w : WriteOnce) : WriteOnce :=
  match timer w with
  | Some d => if (d <=? t)%Z then fire_timer w else w
  | None => w
  end.

(** [c.OnConnected]: [clearTimeout(t)], then [c.SendAsync(ev)] is started
    and awaited.  Every call of the callback sends and waits on its own. *)
Definition on_connected (w : WriteOnce) : WriteOnce :=
  {| w_address := w_address w; w_event := w_event w; timer := None;
     promise := promise w; settledAt := settledAt w;
     awaiting := S (awaiting w);
     w_log := w_log w ++ [SendAsync (w_address w) (w_event w)] |}.

(** The continuation after [await c.SendAsync(ev)]: [c.Close()], then
    [resolve()].  An acknowledgement resumes one suspended call. *)
Definition on_sent (t : Z) (w : WriteOnce) : WriteOnce :=
  match awaiting w with
  | S n =>
      settle Fulfilled t
        {| w_address := w_address w; w_event := w_event w; timer := timer w;
           promise := promise w; settledAt := settledAt w; awaiting := n;
           w_log := w_log w ++ [Close (w_address w)] |}
  | O => w
  end.

Definition write_step (w : WriteOnce) (te : Z * WriteEvent) : WriteOnce :=
  let '(t, e) := te in
  let w := advance t w in
  match e with
  | Connected => on_connected w
  | Sent => on_sent t w
  end.

(** The call and everything that follows it: the events of the environment
    in time order, then the timer if it is still armed. *)
Definition WriteOnceToRelay (address : string) (ev : TaggedRawEvent)
  (events : list (Z * WriteEvent)) : WriteOnce :=
  fire_timer (fold_left write_step events (WriteOnce_start address ev)).

(** ** Statements under test and inputs used in examples *)


(** An observer that unregisters itself when called, and a passive one. *)
Definition hook_self_release : HookSystemSnapshot :=
  {| cb_ref := 1; cb_releases := [1] |}.

Definition hook_passive : HookSystemSnapshot :=
  {| cb_ref := 2; cb_releases := [] |}.

(** Effects that reach a relay. *)
Definition is_network (e : Effect) : bool :=
  match e with
  | NewConnection _ _ _ | Connect _ | Close _ | SendToRelay _ _ _
  | SendClose _ | SendEvent _ _ | SendAsync _ _ => true
  | Eose _ _ _ | Publish _ | Notify _ | ConsoleError | ConsoleDebug _ => false
  end.

Definition network_traffic (es : list Effect) : list Effect := filter is_network es.

Definition is_publish (e : Effect) : bool :=
  match e with Publish _ => true | _ => false end.

(** Number of snapshots published in a stretch of the log. *)
Definition publish_count (es : list Effect) : nat :=
  List.length (filter is_publish es).

(** The continuation that a changed resubmission of [req] adds to [q]. *)
Definition continuation (q : Query) (req : RequestBuilder) : Query :=
  new_Query (id q ++ "-" ++ Number_toString (List.length (subQueries q) + 1))%string
    (rb_build req) (feed q).

(** An address normaliser used in the examples: it rejects the empty
    address and makes every other address end in a slash.  (The normaliser
    of the program is a parameter of the pool, see [ConnectToRelay].) *)
Fixpoint ends_with_slash (a : string) : bool :=
  match a with
  | EmptyString => false
  | String c EmptyString => Ascii.eqb c "/"
  | String _ r => ends_with_slash r
  end.

Definition trailing_slash (a : string) : option string :=
  match a with
  | EmptyString => None
  | _ => Some (if ends_with_slash a then a else (a ++ "/")%string)
  end.

Definition ex_filter_notes : RawReqFilter :=
  {| kinds := [1%Z]; authors := ["alice"]; tags := [];
     since := None; until := None; limit := Some 10%Z |}.

Definition ex_filter_profiles : RawReqFilter :=
  {| kinds := [0%Z]; authors := ["alice"; "bob"]; tags := [];
     since := None; until := None; limit := None |}.

Definition ex_store : NoteStore := {| loading := false; added := [] |}.

Definition ex_settings : RelaySettings := {| read := true; write := true |}.

Definition ex_request : RequestBuilder :=
  {| rb_id := "abc"; rb_build := [ex_filter_notes]; rb_options := None |}.

Definition ex_request_changed : RequestBuilder :=
  {| rb_id := "abc"; rb_build := [ex_filter_notes; ex_filter_profiles];
     rb_options := None |}.

(** A system with one observer, one relay and the query ["abc"]. *)
Definition ex_system : NostrSystem :=
  snd (NostrSystem_Query ex_store (Some ex_request)
         (ConnectToRelay trailing_slash true "wss://relay.example" ex_settings
            (hook hook_passive new_NostrSystem))).

Definition ex_query : Query := new_Query "abc" [ex_filter_notes] 0.

Definition ex_event : TaggedRawEvent :=
  {| ev_id := "e1"; ev_pubkey := "alice"; ev_created_at := 1700000000%Z;
     ev_kind := 1%Z; ev_content := "hello" |}.

(** What one iteration of the clean-up loop emits for an entry. *)
Definition close_effects (now : Z) (kv : string * Query) : list Effect :=
  if past_due now (snd kv) then [SendClose (id (snd kv)); ConsoleDebug (fst kv)]
  else [].

Definition is_past_due (now : Z) (kv : string * Query) : bool := past_due now (snd kv).

Definition survives (now : Z) (kv : string * Query) : bool := negb (past_due now (snd kv)).

(** The reading under which cancelling a registered query is followed by a
    snapshot rebuild and a notification of every observer. *)
Definition cancel_republishes : Prop :=
  forall (now : Z) (sub : string) (s : NostrSystem) (q : Query),
    JsMap.get sub (Queries s) = Some q ->
    snapshot (CancelQuery now sub s) = build_snapshot (Queries (CancelQuery now sub s)) /\
    exists es,
      log (CancelQuery now sub s) = log s ++ es /\
      forall h, In h (stateHooks s) -> In (Notify (cb_ref h)) es.

(** The reading under which a call whose event is not acknowledged within
    five seconds always fails: no [Sent] event up to the deadline means the
    promise is rejected. *)
Definition write_rejects_unless_acknowledged : Prop :=
  forall (address : string) (ev : TaggedRawEvent) (events : list (Z * WriteEvent)),
    (forall t, In (t, Sent) events -> (write_timeout < t)%Z) ->
    promise (WriteOnceToRelay address ev events) = Rejected.

(** The timer is still armed and nothing has happened, or it has fired and
    rejected the promise at the deadline. *)
Definition timed_out_or_waiting (w : WriteOnce) : Prop :=
  (timer w = Some write_timeout /\ promise w = Pending /\ awaiting w = 0) \/
  (timer w = None /\ promise w = Rejected /\ settledAt w = Some write_timeout).

(** ** Well-formed states *)

(** What every state built by the public operations satisfies: the two
    maps have distinct keys, a query is stored under its own id and refers
    to an allocated store, and a connection is stored under its own
    address. *)
Record invariant (s : NostrSystem) : Prop := mkInvariant {
  inv_sockets_wf : JsMap.wf (Sockets s);
  inv_queries_wf : JsMap.wf (Queries s);
  inv_queries_ok :
    forall k q, In (k, q) (Queries s) ->
                id q = k /\ feed q < List.length (stores s);
  inv_sockets_ok :
    forall k c, In (k, c) (Sockets s) -> Address c = k
}.

(** States reachable from a new system by the operations of the class. *)
Inductive reachable (sanitizeRelayUrl : string -> option string) : NostrSystem -> Prop :=
| reach_new :
    reachable sanitizeRelayUrl new_NostrSystem
| reach_hook cb s :
    reachable sanitizeRelayUrl s -> reachable sanitizeRelayUrl (hook cb s)
| reach_release cb s :
    reachable sanitizeRelayUrl s -> reachable sanitizeRelayUrl (hook_release cb s)
| reach_connect ok a o s :
    reachable sanitizeRelayUrl s ->
    reachable sanitizeRelayUrl (ConnectToRelay sanitizeRelayUrl ok a o s)
| reach_connect_ephemeral ok a s :
    reachable sanitizeRelayUrl s ->
    reachable sanitizeRelayUrl (snd (ConnectEphemeralRelay sanitizeRelayUrl ok a s))
| reach_disconnect a s :
    reachable sanitizeRelayUrl s -> reachable sanitizeRelayUrl (DisconnectRelay a s)
| reach_query type req s :
    reachable sanitizeRelayUrl s ->
    reachable sanitizeRelayUrl (snd (NostrSystem_Query type req s))
| reach_cancel now sub s :
    reachable sanitizeRelayUrl s -> reachable sanitizeRelayUrl (CancelQuery now sub s)
| reach_cleanup now s :
    reachable sanitizeRelayUrl s -> reachable sanitizeRelayUrl (cleanup now s)
| reach_event sub ev s :
    reachable sanitizeRelayUrl s -> reachable sanitizeRelayUrl (OnEvent sub ev s)
| reach_eose c sub s :
    reachable sanitizeRelayUrl s ->
    reachable sanitizeRelayUrl (OnEndOfStoredEvents c sub s)
| reach_connected c s :
    reachable sanitizeRelayUrl s -> reachable sanitizeRelayUrl (OnConnected c s)
| reach_broadcast ev s :
    reachable sanitizeRelayUrl s -> reachable sanitizeRelayUrl (BroadcastEvent ev s).

(** ** Sub-query numbering *)

(** The continuations of [q] are numbered from 1 in list order, share the
    store of [q] and have no continuations of their own. *)
Definition subqueries_numbered (q : Query) : Prop :=
  forall i sq,
    nth_error (subQueries q) i = Some sq ->
    id sq = (id q ++ "-" ++ Number_toString (i + 1))%string /\
    feed sq = feed q /\
    subQueries sq = [].

Definition registry_numbered (s : NostrSystem) : Prop :=
  forall k q, In (k, q) (Queries s) -> subqueries_numbered q.

(** The natural number that a string of decimal digits denotes; used to
    tell numerals apart. *)
Fixpoint decimal_value (s : string) (acc : nat) : nat :=
  match s with
  | EmptyString => acc
  | String c r => decimal_value r (10 * acc + (nat_of_ascii c - 48))
  end.

(** ** Toast notifications ([ToasterSlots])

    The base class [ExternalStore] lies outside the files verified here;
    calls of its [notifyChange] are counted.  [unixNow] (seconds) is an
    explicit argument.  A [ReactNode] is opaque and stands as a string. *)

Module Toaster.

Record ToastNotification : Type := mkToast {
  element : string;
  expire : option Z;
  icon : option string
}.

Record ToasterSlots : Type := mkSlots {
  stack : list ToastNotification;
  notifyChange_calls : nat
}.

Definition new_ToasterSlots : ToasterSlots :=
  {| stack := []; notifyChange_calls := 0 |}.

(** [n.expire ??= unixNow() + 3]: only a missing expiry is replaced. *)
Definition with_default_expire (now : Z) (n : ToastNotification) : ToastNotification :=
  {| element := element n;
     expire := match expire n with
               | Some e => Some e
               | None => Some (now + 3)%Z
               end;
     icon := icon n |}.

Definition push (now : Z) (n : ToastNotification) (t : ToasterSlots) : ToasterSlots :=
  {| stack := stack t ++ [with_default_expire now n];
     notifyChange_calls := S (notifyChange_calls t) |}.

(** [takeSnapshot()]: a copy of the stack. *)
Definition takeSnapshot (t : ToasterSlots) : list ToastNotification := stack t.

(** [(a.expire ?? 0) > now] *)
Definition fresh (now : Z) (a : ToastNotification) : bool :=
  (match expire a with Some e => e | None => 0 end >? now)%Z.

(** [#eatToast()], the body of the one-second interval. *)
Definition eatToast (now : Z) (t : ToasterSlots) : ToasterSlots :=
  {| stack := filter (fresh now) (stack t);
     notifyChange_calls := S (notifyChange_calls t) |}.

(** What the component renders for a snapshot: per toast, the icon name
    ([a.icon ?? "bell"]) and the element. *)
Definition render (toast : list ToastNotification) : list (string * string) :=
  map (fun a => (match icon a with Some i => i | None => "bell" end, element a)) toast.

(** States built from a new store by [push] and by ticks. *)
Inductive reachable : ToasterSlots -> Prop :=
| reach_new : reachable new_ToasterSlots
| reach_push now n t : reachable t -> reachable (push now n t)
| reach_eat now t : reachable t -> reachable (eatToast now t).

End Toaster.

(** ** Profile cache: [mapEventToProfile] *)

Module Cache.

(** JavaScript values as far as profile objects need them. *)
Inductive JsValue : Type :=
| JUndefined
| JNull
| JBool (b : bool)
| JNum (n : Z)
| JStr (s : string)
| JArr (l : list JsValue)
| JObj (fields : list (string * JsValue)).

(** The fields of a [RawEvent] that [mapEventToProfile] reads. *)
Record RawEvent : Type := mkRawEvent {
  content : string;
  pubkey : string;
  created_at : Z;
  tags : option (list (list string))
}.

Fixpoint index_from (i : nat) (l : list JsValue) : list (string * JsValue) :=
  match l with
  | [] => []
  | x :: r => (Number_toString i, x) :: index_from (S i) r
  end.

Fixpoint chars (s : string) : list JsValue :=
  match s with
  | EmptyString => []
  | String c r => JStr (String c EmptyString) :: chars r
  end.

(** The own enumerable properties that an object spread copies: the fields
    of an object, the indexed elements of an array or of a string, and
    nothing for the other values. *)
Definition own_properties (v : JsValue) : list (string * JsValue) :=
  match v with
  | JObj fields => fields
  | JArr l => index_from 0 l
  | JStr s => index_from 0 (chars s)
  | _ => []
  end.

(** [{ ...o, ...v }]: each copied property overwrites or extends [o]. *)
Definition spread (o : JsMap.t JsValue) (v : JsValue) : JsMap.t JsValue :=
  fold_left (fun o kv => JsMap.set (fst kv) (snd kv) o) (own_properties v) o.

(** [t[0] === "emoji" && t.length === 3] *)
Definition is_emoji_tag (t : list string) : bool :=
  match t with
  | x :: _ => String.eqb x "emoji"
  | [] => false
  end && (List.length t =? 3)%nat.

(** [ev.tags?.filter(...)] *)
Definition emojis_of (ts : option (list (list string))) : JsValue :=
  match ts with
  | Some ts => JArr (map (fun t => JArr (map JStr t)) (filter is_emoji_tag ts))
  | None => JUndefined
  end.

Section Profile.

(** [JSON.parse] and [hexToBech32] are not part of the verified files; each
    yields a value or throws ([None]). *)
Variable JSON_parse : string -> option JsValue.
Variable hexToBech32 : string -> string -> option string.

(** [mapEventToProfile(ev)] at clock reading [now] ([unixNowMs]).  An
    exception in the [try] block is logged and the function returns
    [undefined] ([None]).  The result is the object as a property map; the
    enumeration order of integer-like keys is not modelled. *)
Definition mapEventToProfile (now : Z) (ev : RawEvent) : option (JsMap.t JsValue) :=
  match JSON_parse (content ev) with
  | None => None
  | Some data =>
      match hexToBech32 "npub" (pubkey ev) with
      | None => None
      | Some npub =>
          let o := [("pubkey", JStr (pubkey ev));
                    ("npub", JStr npub);
                    ("created", JNum (created_at ev))] in
          let o := spread o data in
          let o := JsMap.set "loaded" (JNum now) o in
          Some (JsMap.set "emojis" (emojis_of (tags ev)) o)
      end
  end.

End Profile.

End Cache.

(** The effect is a call on the connection with address [a]. *)
Definition addressed_to (a : string) (e : Effect) : bool :=
  match e with
  | NewConnection x _ _ | Connect x | Close x | SendToRelay _ _ x
  | SendEvent x _ | SendAsync x _ => String.eqb x a
  | _ => false
  end.

Definition is_send (e : Effect) : bool :=
  match e with SendAsync _ _ => true | _ => false end.

Definition is_close (e : Effect) : bool :=
  match e with Close _ => true | _ => false end.

(** Number of [SendAsync] calls and of [Close] calls in a log. *)
Definition sends (es : list Effect) : nat := List.length (filter is_send es).

Definition closes (es : list Effect) : nat := List.length (filter is_close es).

(** What holds of a [WriteOnceToRelay] call for [address] and [ev] at every
    moment: a call of [OnConnected] is suspended only after it has sent the
    event, the promise is fulfilled only after a send and a close, the
    connection is closed only after a send, and every send has either been
    acknowledged and followed by a close or is still awaited. *)
Definition write_order (address : string) (ev : TaggedRawEvent) (w : WriteOnce) : Prop :=
  w_address w = address /\ w_event w = ev /\
  (awaiting w <> 0 -> In (SendAsync address ev) (w_log w)) /\
  (promise w = Fulfilled ->
   In (SendAsync address ev) (w_log w) /\ In (Close address) (w_log w)) /\
  (In (Close address) (w_log w) -> In (SendAsync address ev) (w_log w)) /\
  sends (w_log w) = closes (w_log w) + awaiting w.

(** How many times the callback with identity [r] is registered. *)
Definition registrations (r : nat) (hs : list HookSystemSnapshot) : nat :=
  count_occ Nat.eq_dec (map cb_ref hs) r.

(** The state [s'] carries a snapshot of its own registry, and the log from
    [s] to [s'] ends with the publication of that snapshot followed by the
    calls of a notification round over the observers registered in [s]. *)
Definition published (s s' : NostrSystem) : Prop :=
  snapshot s' = build_snapshot (Queries s') /\
  exists es,
    log s' = log s ++ es ++ Publish (snapshot s')
                              :: map Notify (snd (notify_round (stateHooks s))).

(** The reading under which an unchanged resubmission notifies every
    registered observer and leaves the registry as it was. *)
Definition unchanged_resubmit_notifies_all : Prop :=
  forall (type : NoteStore) (req : RequestBuilder) (q : Query) (s : NostrSystem),
    JsMap.get (rb_id req) (Queries s) = Some q ->
    diff_changed (diffFilters (filters q) (rb_build req)) = false ->
    skipDiff req = false ->
    Queries (snd (NostrSystem_Query type (Some req) s)) = Queries s /\
    exists es,
      log (snd (NostrSystem_Query type (Some req) s)) = log s ++ es /\
      forall h, In h (stateHooks s) -> In (Notify (cb_ref h)) es.

(** The system of the examples with a second observer in front that
    unregisters itself when called. *)
Definition ex_system_two_observers : NostrSystem :=
  hook hook_passive (hook hook_self_release (hook_release 2 ex_system)).



(* ================================================================== *)
(** * Properties *)

(** ** Insertion-ordered maps *)

Section JsMapFacts.

Context {V : Type}.
Implicit Types (m : JsMap.t V) (k : string) (v : V).

Lemma get_set_eq k v m : JsMap.get k (JsMap.set k v m) = Some v.
Proof.
  induction m as [|[k' v'] m IH]; simpl.
  - now rewrite String.eqb_refl.
  - destruct (String.eqb k k') eqn:E; simpl; rewrite E; auto.
Qed.

Lemma get_set_ne k k' v m :
  k <> k' -> JsMap.get k' (JsMap.set k v m) = JsMap.get k' m.
Proof.
  intros Hne. induction m as [|[k0 v0] m IH]; simpl.
  - destruct (String.eqb k' k) eqn:E; auto.
    apply String.eqb_eq in E. congruence.
  - destruct (String.eqb k k0) eqn:E; simpl.
    + apply String.eqb_eq in E. subst k0.
      destruct (String.eqb k' k) eqn:E'; auto.
      apply String.eqb_eq in E'. congruence.
    + now rewrite IH.
Qed.

Lemma get_In k v m : JsMap.get k m = Some v -> In (k, v) m.
Proof.
  induction m as [|[k' v'] m IH]; simpl; [discriminate|].
  destruct (String.eqb k k') eqn:E.
  - apply String.eqb_eq in E. intros [= ->]. subst. now left.
  - intros H. right. auto.
Qed.

Lemma get_None_keys k m : JsMap.get k m = None <-> ~ In k (JsMap.keys m).
Proof.
  induction m as [|[k' v'] m IH]; simpl.
  - tauto.
  - destruct (String.eqb k k') eqn:E.
    + apply String.eqb_eq in E. subst. split; [discriminate | tauto].
    + apply String.eqb_neq in E. rewrite IH. split.
      * intros H [H1|H1]; [congruence | tauto].
      * tauto.
Qed.

Lemma In_get k v m : JsMap.wf m -> In (k, v) m -> JsMap.get k m = Some v.
Proof.
  unfold JsMap.wf. induction m as [|[k' v'] m IH]; simpl; [tauto|].
  intros Hnd [H|H].
  - injection H as -> ->. now rewrite String.eqb_refl.
  - inversion Hnd as [|? ? Hni Hnd']; subst.
    destruct (String.eqb k k') eqn:E.
    + apply String.eqb_eq in E. subst. exfalso. apply Hni.
      change k' with (fst (k', v)). now apply in_map.
    + auto.
Qed.

(** Overwriting an existing key keeps every key where it is. *)
Lemma keys_set_present k v m :
  JsMap.has k m = true -> JsMap.keys (JsMap.set k v m) = JsMap.keys m.
Proof.
  unfold JsMap.has. induction m as [|[k' v'] m IH]; simpl; [discriminate|].
  destruct (String.eqb k k') eqn:E; simpl; auto.
  intros H. now rewrite IH.
Qed.

(** A new key goes to the end. *)
Lemma set_absent k v m :
  JsMap.get k m = None -> JsMap.set k v m = m ++ [(k, v)].
Proof.
  induction m as [|[k' v'] m IH]; simpl; auto.
  destruct (String.eqb k k'); [discriminate|].
  intros H. now rewrite IH.
Qed.

Lemma wf_set k v m : JsMap.wf m -> JsMap.wf (JsMap.set k v m).
Proof.
  intros Hwf. destruct (JsMap.get k m) eqn:E.
  - unfold JsMap.wf. rewrite keys_set_present; auto.
    unfold JsMap.has. now rewrite E.
  - rewrite set_absent by auto. unfold JsMap.wf, JsMap.keys in *.
    rewrite map_app. simpl.
    apply NoDup_app; auto.
    + repeat constructor. simpl. tauto.
    + intros x Hx [<-|[]]. apply get_None_keys in E. auto.
Qed.

Lemma delete_absent k m : JsMap.get k m = None -> JsMap.delete k m = m.
Proof.
  induction m as [|[k' v'] m IH]; simpl; auto.
  destruct (String.eqb k k'); [discriminate|].
  intros H. now rewrite IH.
Qed.

Lemma keys_delete_incl k m x :
  In x (JsMap.keys (JsMap.delete k m)) -> In x (JsMap.keys m).
Proof.
  induction m as [|[k' v'] m IH]; simpl; auto.
  destruct (String.eqb k k'); simpl; tauto.
Qed.

Lemma wf_delete k m : JsMap.wf m -> JsMap.wf (JsMap.delete k m).
Proof.
  unfold JsMap.wf. induction m as [|[k' v'] m IH]; simpl; auto.
  intros Hnd. inversion Hnd as [|? ? Hni Hnd']; subst.
  destruct (String.eqb k k'); simpl; auto.
  constructor; auto. intros H. apply Hni. eapply keys_delete_incl; eauto.
Qed.

Lemma get_delete_eq k m : JsMap.wf m -> JsMap.get k (JsMap.delete k m) = None.
Proof.
  unfold JsMap.wf. induction m as [|[k' v'] m IH]; simpl; auto.
  intros Hnd. inversion Hnd as [|? ? Hni Hnd']; subst.
  destruct (String.eqb k k') eqn:E; simpl.
  - apply String.eqb_eq in E. subst. now apply get_None_keys.
  - rewrite E. auto.
Qed.

Lemma get_delete_ne k k' m :
  k <> k' -> JsMap.get k' (JsMap.delete k m) = JsMap.get k' m.
Proof.
  intros Hne. induction m as [|[k0 v0] m IH]; simpl; auto.
  destruct (String.eqb k k0) eqn:E; simpl.
  - apply String.eqb_eq in E. subst k0.
    destruct (String.eqb k' k) eqn:E'; auto.
    apply String.eqb_eq in E'. congruence.
  - now rewrite IH.
Qed.

(** In a well-formed map a key is stored at most once. *)
Lemma count_wf k m :
  JsMap.wf m -> JsMap.count k m = if JsMap.has k m then 1 else 0.
Proof.
  unfold JsMap.wf, JsMap.count, JsMap.has.
  induction m as [|[k' v'] m IH]; simpl; auto.
  intros Hnd. inversion Hnd as [|? ? Hni Hnd']; subst.
  destruct (String.eqb k k') eqn:E; simpl.
  - apply String.eqb_eq in E. subst.
    apply get_None_keys in Hni. specialize (IH Hnd').
    rewrite Hni in IH. now rewrite IH.
  - auto.
Qed.

(** Deleting the entry at the head of the not yet visited part. *)
Lemma delete_middle k v (pre post : JsMap.t V) :
  ~ In k (JsMap.keys pre) ->
  JsMap.delete k (pre ++ (k, v) :: post) = pre ++ post.
Proof.
  induction pre as [|[k' v'] pre IH]; simpl.
  - now rewrite String.eqb_refl.
  - intros H. destruct (String.eqb k k') eqn:E.
    + apply String.eqb_eq in E. subst. tauto.
    + rewrite IH; [reflexivity | tauto].
Qed.

End JsMapFacts.

(** ** Sub-query ids *)

Lemma dash_not_digit : is_digit "-" = false.
Proof. reflexivity. Qed.

Lemma all_digits_dash (x y : string) :
  all_digits (x ++ String "-" y)%string = false.
Proof.
  induction x as [|c x IH]; simpl.
  - reflexivity.
  - rewrite IH. apply andb_false_r.
Qed.

(** The expression cannot match inside the parent part of [parent-digits]:
    the text after a candidate dash would contain the final dash. *)
Lemma subFilterId_at_inner (c : ascii) (x ds : string) :
  subFilterId_at (String c (x ++ String "-" ds))%string = false.
Proof.
  unfold subFilterId_at. rewrite all_digits_dash. apply andb_false_r.
Qed.

Lemma subFilterId_at_suffix (ds : string) :
  ds <> EmptyString -> all_digits ds = true ->
  subFilterId_at (String "-" ds) = true.
Proof.
  intros Hne Hd. unfold subFilterId_at. rewrite Hd.
  destruct ds; [congruence | reflexivity].
Qed.

Lemma subFilterId_match_suffix (parent ds : string) :
  ds <> EmptyString -> all_digits ds = true ->
  subFilterId_match (parent ++ String "-" ds)%string = true.
Proof.
  intros Hne Hd. induction parent as [|c p IH].
  - simpl append. destruct ds; [congruence|].
    unfold subFilterId_match; fold subFilterId_match.
    now rewrite subFilterId_at_suffix.
  - simpl append. unfold subFilterId_match; fold subFilterId_match.
    rewrite IH. apply orb_true_r.
Qed.

Lemma split_first_suffix (parent ds : string) :
  ds <> EmptyString -> all_digits ds = true ->
  split_first (parent ++ String "-" ds)%string = parent.
Proof.
  intros Hne Hd. induction parent as [|c p IH].
  - simpl append. unfold split_first; fold split_first.
    now rewrite subFilterId_at_suffix.
  - simpl append. unfold split_first; fold split_first.
    rewrite subFilterId_at_inner. now rewrite IH.
Qed.

Lemma is_digit_digit_char (d : nat) : d < 10 -> is_digit (digit_char d) = true.
Proof.
  intros H. do 10 (destruct d as [|d]; [reflexivity|]). lia.
Qed.

Lemma digits_loop_all_digits (fuel n : nat) (acc : string) :
  all_digits acc = true -> all_digits (digits_loop fuel n acc) = true.
Proof.
  revert n acc. induction fuel as [|fuel IH]; intros n acc Hacc;
    cbn [digits_loop]; auto.
  assert (Hd : all_digits (String (digit_char (n mod 10)) acc) = true).
  { cbn [all_digits]. rewrite Hacc, is_digit_digit_char; auto.
    apply Nat.mod_upper_bound. lia. }
  destruct (n / 10 =? 0)%nat; auto.
Qed.

Lemma digits_loop_nonempty (fuel n : nat) (acc : string) :
  digits_loop (S fuel) n acc <> EmptyString.
Proof.
  revert n acc. induction fuel as [|fuel IH]; intros n acc.
  - cbn [digits_loop]. destruct (n / 10 =? 0)%nat; discriminate.
  - change (digits_loop (S (S fuel)) n acc)
      with (let acc' := String (digit_char (n mod 10)) acc in
            if (n / 10 =? 0)%nat then acc' else digits_loop (S fuel) (n / 10) acc').
    cbv zeta. destruct (n / 10 =? 0)%nat; [discriminate | apply IH].
Qed.

Lemma Number_toString_digits (n : nat) : all_digits (Number_toString n) = true.
Proof. unfold Number_toString. now apply digits_loop_all_digits. Qed.

Lemma Number_toString_nonempty (n : nat) : Number_toString n <> EmptyString.
Proof. unfold Number_toString. apply digits_loop_nonempty. Qed.

Example Number_toString_1 : Number_toString 1 = "1".
Proof. reflexivity. Qed.

Example Number_toString_12 : Number_toString 12 = "12".
Proof. reflexivity. Qed.

Example Number_toString_307 : Number_toString 307 = "307".
Proof. reflexivity. Qed.

Example split_first_abc_2 : split_first "abc-2" = "abc".
Proof. reflexivity. Qed.

Example split_first_nested : split_first "a-1-22" = "a-1".
Proof. reflexivity. Qed.

Example subFilterId_no_match : subFilterId_match "abc-2x" = false.
Proof. reflexivity. Qed.

Lemma GetQuery_suffix (s : NostrSystem) (parent ds : string) :
  ds <> EmptyString -> all_digits ds = true ->
  GetQuery (parent ++ "-" ++ ds)%string s = JsMap.get parent (Queries s).
Proof.
  intros Hne Hd. unfold GetQuery.
  change ("-" ++ ds)%string with (String "-" ds).
  now rewrite subFilterId_match_suffix, split_first_suffix.
Qed.

Lemma nth_error_update_nth {A} (f : A -> A) (l : list A) (n : nat) (x : A) :
  nth_error l n = Some x -> nth_error (update_nth n f l) n = Some (f x).
Proof.
  revert n. induction l as [|y l IH]; intros [|n]; simpl; try discriminate.
  - now intros [= ->].
  - apply IH.
Qed.

Lemma nth_error_update_nth_ne {A} (f : A -> A) (l : list A) (n m : nat) :
  n <> m -> nth_error (update_nth n f l) m = nth_error l m.
Proof.
  revert n m. induction l as [|y l IH]; intros [|n] [|m] H; simpl; auto.
  congruence.
Qed.

Lemma length_update_nth {A} (f : A -> A) (l : list A) (n : nat) :
  List.length (update_nth n f l) = List.length l.
Proof.
  revert n. induction l as [|y l IH]; intros [|n]; simpl; auto.
Qed.

(** C2. An inbound subscription id that ends in a dash followed by digits
    is truncated to its parent id before the query lookup: the lookup for
    [parent-digits] is the lookup for [parent], so an event for the
    continuation id is added to the store of the parent query, and an
    end-of-stored-events signal is handed to the parent query. *)
Theorem C2_suffix_routes_to_parent
  (s : NostrSystem) (parent ds : string) (ev : TaggedRawEvent) (c : Connection) :
  ds <> EmptyString -> all_digits ds = true ->
  let sub := (parent ++ "-" ++ ds)%string in
  GetQuery sub s = JsMap.get parent (Queries s) /\
  forall q, JsMap.get parent (Queries s) = Some q ->
    OnEvent sub ev s = store_add (feed q) ev s /\
    (forall st, nth_error (stores s) (feed q) = Some st ->
       nth_error (stores (OnEvent sub ev s)) (feed q)
       = Some {| loading := loading st; added := added st ++ [ev] |}) /\
    Queries (OnEvent sub ev s) = Queries s /\
    OnEndOfStoredEvents c sub s = emit [Eose (id q) sub (Address c)] s.
Proof.
  intros Hne Hd sub.
  assert (HG : GetQuery sub s = JsMap.get parent (Queries s))
    by now apply GetQuery_suffix.
  split; [exact HG|].
  intros q Hq. unfold OnEvent, OnEndOfStoredEvents. rewrite HG, Hq.
  repeat split.
  intros st Hst. simpl.
  now apply (nth_error_update_nth
               (fun st => {| loading := loading st; added := added st ++ [ev] |})).
Qed.

(** ** Observers *)

Lemma remove_at_incl {A} (i : nat) (l : list A) (x : A) :
  In x (remove_at i l) -> In x l.
Proof.
  revert i. induction l as [|y l IH]; intros [|i]; simpl; auto.
  intros [H|H]; eauto.
Qed.

Lemma removelast_incl {A} (l : list A) (x : A) : In x (removelast l) -> In x l.
Proof.
  induction l as [|y l IH]; simpl; auto.
  destruct l as [|z l]; simpl in *; [tauto|].
  intros [H|H]; auto.
Qed.

Lemma remove_at_NoDup {A} (i : nat) (l : list A) : NoDup l -> NoDup (remove_at i l).
Proof.
  revert i. induction l as [|y l IH]; intros [|i] H; simpl; auto;
    inversion H; subst; auto.
  constructor; auto. intros Hin. eauto using remove_at_incl.
Qed.

Lemma removelast_NoDup {A} (l : list A) : NoDup l -> NoDup (removelast l).
Proof.
  induction l as [|y l IH]; intros H; simpl; auto.
  inversion H; subst. destruct l as [|z l]; [constructor|].
  constructor; auto. intros Hin. eauto using removelast_incl.
Qed.

Lemma map_remove_at {A B} (f : A -> B) (i : nat) (l : list A) :
  map f (remove_at i l) = remove_at i (map f l).
Proof.
  revert i. induction l as [|y l IH]; intros [|i]; simpl; auto.
  now rewrite IH.
Qed.

Lemma map_removelast {A B} (f : A -> B) (l : list A) :
  map f (removelast l) = removelast (map f l).
Proof.
  induction l as [|y l IH]; simpl; auto.
  destruct l as [|z l]; simpl in *; auto. now rewrite IH.
Qed.

Lemma length_remove_at {A} (i : nat) (l : list A) :
  List.length (remove_at i l) <= List.length l.
Proof.
  revert i. induction l as [|y l IH]; intros [|i]; simpl; auto.
  specialize (IH i). lia.
Qed.

Lemma length_removelast_le {A} (l : list A) :
  List.length (removelast l) <= List.length l.
Proof.
  induction l as [|y l IH]; simpl; auto.
  destruct l as [|z l]; simpl in *; lia.
Qed.

Lemma release_refs_incl (cb r : nat) (hs : list HookSystemSnapshot) :
  In r (map cb_ref (release cb hs)) -> In r (map cb_ref hs).
Proof.
  unfold release, splice1. destruct (findIndex cb hs).
  - rewrite map_remove_at. apply remove_at_incl.
  - rewrite map_removelast. apply removelast_incl.
Qed.

Lemma release_incl (cb : nat) (hs : list HookSystemSnapshot) (x : HookSystemSnapshot) :
  In x (release cb hs) -> In x hs.
Proof.
  unfold release, splice1. destruct (findIndex cb hs).
  - apply remove_at_incl.
  - apply removelast_incl.
Qed.

Lemma release_NoDup (cb : nat) (hs : list HookSystemSnapshot) :
  NoDup (map cb_ref hs) -> NoDup (map cb_ref (release cb hs)).
Proof.
  unfold release, splice1. destruct (findIndex cb hs).
  - rewrite map_remove_at. apply remove_at_NoDup.
  - rewrite map_removelast. apply removelast_NoDup.
Qed.

Lemma length_release (cb : nat) (hs : list HookSystemSnapshot) :
  List.length (release cb hs) <= List.length hs.
Proof.
  unfold release, splice1. destruct (findIndex cb hs).
  - apply length_remove_at.
  - apply length_removelast_le.
Qed.

Lemma findIndex_None (r : nat) (hs : list HookSystemSnapshot) :
  findIndex r hs = None -> ~ In r (map cb_ref hs).
Proof.
  induction hs as [|h hs IH]; simpl; auto.
  destruct (cb_ref h =? r)%nat eqn:E; [discriminate|].
  apply Nat.eqb_neq in E.
  destruct (findIndex r hs); [discriminate|].
  intros _ [H|H]; [congruence | now apply IH].
Qed.

(** The release function of a registered callback removes it; callbacks
    are registered once. *)
Lemma release_removes (r : nat) (hs : list HookSystemSnapshot) :
  NoDup (map cb_ref hs) -> ~ In r (map cb_ref (release r hs)).
Proof.
  unfold release. induction hs as [|h hs IH]; simpl; auto.
  intros Hnd. inversion Hnd as [|? ? Hni Hnd']; subst.
  destruct (cb_ref h =? r)%nat eqn:E.
  - apply Nat.eqb_eq in E. subst. exact Hni.
  - apply Nat.eqb_neq in E. destruct (findIndex r hs) as [i|] eqn:F.
    + simpl. intros [H|H]; [congruence|]. now apply IH.
    + intros H. change (removelast (h :: hs)) with (splice1 None (h :: hs)) in H.
      unfold splice1 in H. rewrite map_removelast in H.
      apply removelast_incl in H. simpl in H.
      destruct H as [H|H]; [congruence|].
      now apply (findIndex_None r hs).
Qed.

Lemma fold_release_refs_incl (cbs : list nat) (hs : list HookSystemSnapshot) (r : nat) :
  In r (map cb_ref (fold_left (fun l cb => release cb l) cbs hs)) ->
  In r (map cb_ref hs).
Proof.
  revert hs. induction cbs as [|cb cbs IH]; intros hs; simpl; auto.
  intros H. apply IH in H. eauto using release_refs_incl.
Qed.

Lemma fold_release_incl (cbs : list nat) (hs : list HookSystemSnapshot)
  (x : HookSystemSnapshot) :
  In x (fold_left (fun l cb => release cb l) cbs hs) -> In x hs.
Proof.
  revert hs. induction cbs as [|cb cbs IH]; intros hs; simpl; auto.
  intros H. apply IH in H. eauto using release_incl.
Qed.

Lemma fold_release_NoDup (cbs : list nat) (hs : list HookSystemSnapshot) :
  NoDup (map cb_ref hs) ->
  NoDup (map cb_ref (fold_left (fun l cb => release cb l) cbs hs)).
Proof.
  revert hs. induction cbs as [|cb cbs IH]; intros hs; simpl; auto.
  intros H. apply IH. now apply release_NoDup.
Qed.

Lemma length_fold_release (cbs : list nat) (hs : list HookSystemSnapshot) :
  List.length (fold_left (fun l cb => release cb l) cbs hs) <= List.length hs.
Proof.
  revert hs. induction cbs as [|cb cbs IH]; intros hs; simpl; auto.
  specialize (IH (release cb hs)). pose proof (length_release cb hs). lia.
Qed.


Lemma run_callback_incl h hs x : In x (run_callback h hs) -> In x hs.
Proof. apply fold_release_incl. Qed.

Lemma run_callback_NoDup h hs :
  NoDup (map cb_ref hs) -> NoDup (map cb_ref (run_callback h hs)).
Proof. apply fold_release_NoDup. Qed.

Lemma length_run_callback h hs :
  List.length (run_callback h hs) <= List.length hs.
Proof. apply length_fold_release. Qed.

(** A callback that calls its own release function is no longer registered
    when its body has run. *)
Lemma run_callback_self_release h hs r :
  NoDup (map cb_ref hs) -> In r (cb_releases h) ->
  ~ In r (map cb_ref (run_callback h hs)).
Proof.
  intros Hnd Hin. unfold run_callback.
  destruct (in_split _ _ Hin) as (l1 & l2 & ->).
  rewrite fold_left_app. simpl. intros H.
  apply fold_release_refs_incl in H.
  revert H. apply release_removes. now apply fold_release_NoDup.
Qed.

(** More fuel than the number of observers left to visit changes nothing:
    the loop always ends because the index reaches the end of the list. *)
Lemma notify_loop_fuel (fuel1 fuel2 i : nat) (hs : list HookSystemSnapshot) :
  List.length hs - i <= fuel1 -> List.length hs - i <= fuel2 ->
  notify_loop fuel1 i hs = notify_loop fuel2 i hs.
Proof.
  revert fuel2 i hs. induction fuel1 as [|fuel1 IH]; intros fuel2 i hs H1 H2.
  - assert (Hn : nth_error hs i = None) by (apply nth_error_None; lia).
    destruct fuel2; simpl; [reflexivity | now rewrite Hn].
  - destruct fuel2 as [|fuel2].
    + assert (Hn : nth_error hs i = None) by (apply nth_error_None; lia).
      simpl. now rewrite Hn.
    + simpl. destruct (nth_error hs i) as [h|] eqn:Hn; [|reflexivity].
      assert (i < List.length hs) by (apply nth_error_Some; congruence).
      pose proof (length_run_callback h hs).
      rewrite (IH fuel2 (S i) (run_callback h hs)) by lia.
      reflexivity.
Qed.


Lemma skipn_nth_error {A} (l : list A) (i : nat) (x : A) :
  nth_error l i = Some x -> skipn i l = x :: skipn (S i) l.
Proof.
  revert i. induction l as [|y l IH]; intros [|i]; simpl; try discriminate.
  - now intros [= ->].
  - intros H. now rewrite (IH i H).
Qed.

(** When no callback touches the observer list, the round calls every
    observer once, in registration order, and leaves the list as it is. *)
Lemma notify_loop_passive (fuel i : nat) (hs : list HookSystemSnapshot) :
  (forall h, In h hs -> cb_releases h = []) ->
  List.length hs - i <= fuel ->
  notify_loop fuel i hs = (hs, map cb_ref (skipn i hs)).
Proof.
  intros Hp. revert i. induction fuel as [|fuel IH]; intros i Hf; simpl.
  - rewrite skipn_all2 by lia. reflexivity.
  - destruct (nth_error hs i) as [h|] eqn:Hn.
    + assert (Hin : In h hs) by (eapply nth_error_In; eauto).
      assert (Hlt : i < List.length hs) by (apply nth_error_Some; congruence).
      unfold run_callback. rewrite (Hp h Hin). simpl.
      rewrite IH by lia.
      now rewrite (skipn_nth_error _ _ _ Hn).
    + apply nth_error_None in Hn. rewrite skipn_all2 by lia. reflexivity.
Qed.

Lemma notify_round_passive (hs : list HookSystemSnapshot) :
  (forall h, In h hs -> cb_releases h = []) ->
  notify_round hs = (hs, map cb_ref hs).
Proof.
  intros Hp. unfold notify_round.
  rewrite notify_loop_passive; auto. lia.
Qed.

(** *** Counting registrations *)

Lemma count_skipn_S_le (k x : nat) (l : list nat) :
  count_occ Nat.eq_dec (skipn (S k) l) x <= count_occ Nat.eq_dec (skipn k l) x.
Proof.
  revert k. induction l as [|y l IH]; intros k.
  - destruct k; simpl; lia.
  - destruct k as [|k].
    + cbn [skipn]. simpl. destruct (Nat.eq_dec y x); lia.
    + cbn [skipn]. apply (IH k).
Qed.

Lemma count_skipn_remove_at_le (k j x : nat) (l : list nat) :
  count_occ Nat.eq_dec (skipn k (remove_at j l)) x
  <= count_occ Nat.eq_dec (skipn k l) x.
Proof.
  revert k j. induction l as [|y l IH]; intros k j.
  - destruct j; simpl; lia.
  - destruct k as [|k]; destruct j as [|j]; cbn [remove_at].
    + cbn [skipn]. simpl. destruct (Nat.eq_dec y x); lia.
    + cbn [skipn]. specialize (IH 0 j). cbn [skipn] in IH. simpl.
      destruct (Nat.eq_dec y x); lia.
    + change (skipn (S k) (y :: l)) with (skipn k l). apply count_skipn_S_le.
    + cbn [skipn]. apply IH.
Qed.

Lemma count_skipn_removelast_le (k x : nat) (l : list nat) :
  count_occ Nat.eq_dec (skipn k (removelast l)) x
  <= count_occ Nat.eq_dec (skipn k l) x.
Proof.
  revert k. induction l as [|y l IH]; intros k; [simpl; lia|].
  destruct l as [|z l].
  - cbn [removelast]. destruct k; simpl; lia.
  - change (removelast (y :: z :: l)) with (y :: removelast (z :: l)).
    destruct k as [|k]; cbn [skipn].
    + specialize (IH 0). cbn [skipn] in IH.
      destruct (Nat.eq_dec y x) as [E|E].
      * rewrite (count_occ_cons_eq Nat.eq_dec (removelast (z :: l)) E).
        rewrite (count_occ_cons_eq Nat.eq_dec (z :: l) E). lia.
      * rewrite (count_occ_cons_neq Nat.eq_dec (removelast (z :: l)) E).
        rewrite (count_occ_cons_neq Nat.eq_dec (z :: l) E). lia.
    + apply IH.
Qed.

Lemma registrations_skipn_release (k cb r : nat) (hs : list HookSystemSnapshot) :
  registrations r (skipn k (release cb hs)) <= registrations r (skipn k hs).
Proof.
  unfold registrations, release, splice1. rewrite <- !skipn_map.
  destruct (findIndex cb hs).
  - rewrite map_remove_at. apply count_skipn_remove_at_le.
  - rewrite map_removelast. apply count_skipn_removelast_le.
Qed.

Lemma registrations_skipn_run_callback (k r : nat) (h : HookSystemSnapshot)
  (hs : list HookSystemSnapshot) :
  registrations r (skipn k (run_callback h hs)) <= registrations r (skipn k hs).
Proof.
  unfold run_callback. revert hs.
  induction (cb_releases h) as [|cb cbs IH]; intros hs; cbn [fold_left]; [lia|].
  specialize (IH (release cb hs)).
  pose proof (registrations_skipn_release k cb r hs). lia.
Qed.

Lemma registrations_release (cb r : nat) (hs : list HookSystemSnapshot) :
  registrations r (release cb hs) <= registrations r hs.
Proof. apply (registrations_skipn_release 0). Qed.


Lemma registrations_0 (r : nat) (hs : list HookSystemSnapshot) :
  registrations r hs = 0 <-> ~ In r (map cb_ref hs).
Proof. unfold registrations. symmetry. apply count_occ_not_In. Qed.

(** The release function of a callback that is registered once removes
    it. *)
Lemma release_removes_once (r : nat) (hs : list HookSystemSnapshot) :
  registrations r hs <= 1 -> ~ In r (map cb_ref (release r hs)).
Proof.
  unfold release, registrations. induction hs as [|h hs IH]; [simpl; auto|].
  cbn [findIndex map].
  destruct (cb_ref h =? r)%nat eqn:E.
  - apply Nat.eqb_eq in E. rewrite (count_occ_cons_eq Nat.eq_dec _ E).
    intros Hle. cbn [splice1 remove_at].
    apply (count_occ_not_In Nat.eq_dec). lia.
  - apply Nat.eqb_neq in E. rewrite (count_occ_cons_neq Nat.eq_dec _ E).
    intros Hle. destruct (findIndex r hs) as [i|] eqn:F.
    + cbn [splice1 remove_at map]. intros [H|H]; [congruence|].
      now apply IH.
    + intros H. cbn [splice1] in H. rewrite map_removelast in H.
      apply removelast_incl in H. cbn [map] in H.
      destruct H as [H|H]; [congruence|].
      now apply (findIndex_None r hs).
Qed.





(** An observer registered twice is not covered: the release function
    removes one registration, and the round calls the other one at the
    index it has moved to only in the next round. *)
Example round_with_double_registration :
  notify_round [hook_self_release; hook_self_release] = ([hook_self_release], [1]).
Proof. reflexivity. Qed.


(** The release function of a callback that is not registered (for
    instance, one that was released before) finds index [-1], and
    [splice(-1, 1)] removes the last observer. *)
Example release_unregistered_removes_last :
  release 9 [hook_self_release; hook_passive] = [hook_self_release].
Proof. reflexivity. Qed.

Example hook_then_release :
  stateHooks (hook_release 2 (hook hook_passive new_NostrSystem)) = [].
Proof. reflexivity. Qed.

Example round_skips_next_observer :
  notify_round [hook_self_release; hook_passive] = ([hook_passive], [1]).
Proof. reflexivity. Qed.

(** ** The registry: submit *)

Lemma changed_spec (s : NostrSystem) :
  Sockets (changed s) = Sockets s /\
  Queries (changed s) = Queries s /\
  stores (changed s) = stores s /\
  snapshot (changed s) = build_snapshot (Queries s) /\
  stateHooks (changed s) = fst (notify_round (stateHooks s)) /\
  log (changed s)
  = log s ++ Publish (build_snapshot (Queries s))
               :: map Notify (snd (notify_round (stateHooks s))).
Proof.
  unfold changed. destruct (notify_round (stateHooks s)) as [hs' called].
  simpl. repeat split.
Qed.

Lemma set_same {V} (k : string) (v : V) (m : JsMap.t V) :
  JsMap.get k m = Some v -> JsMap.set k v m = m.
Proof.
  induction m as [|[k' v'] m IH]; simpl; [discriminate|].
  destruct (String.eqb k k'); [now intros [= ->]|].
  intros H. now rewrite IH.
Qed.

Lemma unCancel_open (q : Query) : closingAt q = None -> unCancel q = q.
Proof. destruct q; simpl. now intros ->. Qed.

Lemma diffFilters_unchanged (old new : list RawReqFilter) :
  diff_changed (diffFilters old new) = false <-> old = new.
Proof.
  unfold diffFilters; simpl.
  destruct (list_eq_dec RawReqFilter_eq_dec old new); split; congruence.
Qed.

Lemma compare_same (a : list RawReqFilter) : diff_changed (diffFilters a a) = false.
Proof. now apply diffFilters_unchanged. Qed.

(** The unchanged branch of the submit operation. *)
Lemma Query_unchanged (type : NoteStore) (req : RequestBuilder) (q : Query)
  (s : NostrSystem) :
  JsMap.get (rb_id req) (Queries s) = Some q ->
  diff_changed (diffFilters (filters q) (rb_build req)) = false ->
  skipDiff req = false ->
  NostrSystem_Query type (Some req) s
  = (feed q,
     changed (with_Queries (JsMap.set (rb_id req) (unCancel q) (Queries s)) s)).
Proof.
  intros Hq Hd Hs. unfold NostrSystem_Query. rewrite Hq.
  cbn [unCancel filters feed]. now rewrite Hd, Hs.
Qed.

(** The changed branch of the submit operation. *)
Lemma Query_changed (type : NoteStore) (req : RequestBuilder) (q : Query)
  (s : NostrSystem) :
  JsMap.get (rb_id req) (Queries s) = Some q ->
  rb_build req <> filters q \/ skipDiff req = true ->
  NostrSystem_Query type (Some req) s
  = (feed q,
     changed
       (SendQuery (continuation q req)
          (set_loading (feed q) true
             (with_Queries
                (JsMap.set (rb_id req)
                   {| id := id q; filters := rb_build req;
                      subQueries := subQueries q ++ [continuation q req];
                      leaveOpen := leaveOpen q; relays := relays q;
                      closingAt := None; feed := feed q |}
                   (Queries s)) s)))).
Proof.
  intros Hq Hc. unfold NostrSystem_Query. rewrite Hq.
  cbn [unCancel filters feed id subQueries leaveOpen relays closingAt].
  assert (E : negb (diff_changed (diffFilters (filters q) (rb_build req)))
              && negb (skipDiff req) = false).
  { destruct Hc as [Hc|Hc].
    - destruct (diff_changed (diffFilters (filters q) (rb_build req))) eqn:D;
        [reflexivity|].
      apply diffFilters_unchanged in D. congruence.
    - rewrite Hc. apply andb_false_r. }
  rewrite E. reflexivity.
Qed.

(** A submit call for a registered query takes one of the two branches. *)
Lemma Query_registered (type : NoteStore) (req : RequestBuilder) (q : Query)
  (s : NostrSystem) :
  JsMap.get (rb_id req) (Queries s) = Some q ->
  (diff_changed (diffFilters (filters q) (rb_build req)) = false /\
   skipDiff req = false) \/
  (rb_build req <> filters q \/ skipDiff req = true).
Proof.
  intros Hq.
  destruct (diff_changed (diffFilters (filters q) (rb_build req))) eqn:D.
  - right. left. intros E. symmetry in E.
    apply diffFilters_unchanged in E. congruence.
  - destruct (skipDiff req); auto.
Qed.

(** Rewrites the fields of a state produced by [changed]. *)
Ltac after_changed :=
  match goal with
  | |- context [changed ?s1] =>
      let HS := fresh "HS" in
      let HQ := fresh "HQ" in
      let Hst := fresh "Hst" in
      let Hsn := fresh "Hsn" in
      let Hh := fresh "Hh" in
      let Hl := fresh "Hl" in
      destruct (changed_spec s1) as (HS & HQ & Hst & Hsn & Hh & Hl);
      rewrite ?HS, ?HQ, ?Hst, ?Hsn, ?Hh, ?Hl;
      clear HS HQ Hst Hsn Hh Hl
  end.

(** C1. A submit call for a registered query [q] with a filter set that
    differs from the stored one (or with skipDiff set) adds exactly one
    continuation to [q]: its id is the id of [q], a dash and the prior
    number of sub-queries plus one, it carries the whole new filter set and
    the store reference of [q]; the stored filters of [q] become the new
    set, the loading flag of the store is set, the continuation alone is
    sent to every connection of the pool, and a new snapshot is published. *)
Theorem C1_changed_resubmit_adds_continuation
  (type : NoteStore) (req : RequestBuilder) (q : Query) (s : NostrSystem) :
  JsMap.get (rb_id req) (Queries s) = Some q ->
  rb_build req <> filters q \/ skipDiff req = true ->
  feed q < List.length (stores s) ->
  let s' := snd (NostrSystem_Query type (Some req) s) in
  let subQ :=
    new_Query (id q ++ "-" ++ Number_toString (List.length (subQueries q) + 1))%string
      (rb_build req) (feed q) in
  fst (NostrSystem_Query type (Some req) s) = feed q /\
  (exists q',
      JsMap.get (rb_id req) (Queries s') = Some q' /\
      id q' = id q /\
      subQueries q' = subQueries q ++ [subQ] /\
      filters q' = rb_build req /\
      feed q' = feed q) /\
  (forall k, k <> rb_id req ->
             JsMap.get k (Queries s') = JsMap.get k (Queries s)) /\
  JsMap.keys (Queries s') = JsMap.keys (Queries s) /\
  (exists st, nth_error (stores s') (feed q) = Some st /\ loading st = true) /\
  List.length (stores s') = List.length (stores s) /\
  Sockets s' = Sockets s /\
  snapshot s' = build_snapshot (Queries s') /\
  log s'
  = log s
    ++ map (fun c => SendToRelay (id subQ) (rb_build req) (Address c))
         (JsMap.values (Sockets s))
    ++ Publish (snapshot s') :: map Notify (snd (notify_round (stateHooks s))).
Proof.
  intros Hq Hc Hf s' subQ. subst s'.
  rewrite (Query_changed type req q s Hq Hc). cbn [fst snd].
  fold (continuation q req) in subQ. subst subQ.
  set (s1 := SendQuery _ _).
  destruct (changed_spec s1) as (HS & HQ & Hst & Hsn & _ & Hl).
  rewrite HS, HQ, Hst, Hsn, Hl. subst s1. cbn.
  split; [reflexivity|]. split.
  { eexists. split; [apply get_set_eq|]. cbn. repeat split. }
  split. { intros k Hk. now apply get_set_ne. }
  split. { apply keys_set_present. unfold JsMap.has. now rewrite Hq. }
  split.
  { destruct (nth_error (stores s) (feed q)) as [st|] eqn:E.
    - eexists. split.
      + apply (nth_error_update_nth
                 (fun st => {| loading := true; added := added st |})). eassumption.
      + reflexivity.
    - apply nth_error_None in E. lia. }
  split. { apply length_update_nth. }
  split; [reflexivity|]. split; [reflexivity|].
  now rewrite <- app_assoc.
Qed.

Example ex_system_registry : Queries ex_system = [("abc", ex_query)].
Proof. reflexivity. Qed.

Example ex_system_pool :
  Sockets ex_system
  = [("wss://relay.example/",
      {| Address := "wss://relay.example/"; Settings := ex_settings;
         Ephemeral := false |})].
Proof. reflexivity. Qed.

Lemma C1_changed_resubmit_adds_continuation_witness :
  exists q',
    JsMap.get "abc" (Queries (snd (NostrSystem_Query ex_store (Some ex_request_changed)
                                      ex_system))) = Some q' /\
    map id (subQueries q') = ["abc-1"].
Proof.
  pose proof (C1_changed_resubmit_adds_continuation
                ex_store ex_request_changed ex_query ex_system) as H.
  cbv zeta in H.
  destruct H as (_ & (q' & Hq' & _ & Hsub & _) & _).
  - reflexivity.
  - left. discriminate.
  - vm_compute. lia.
  - exists q'. split; [exact Hq'|]. rewrite Hsub. reflexivity.
Defined.

(** Events for the continuation that a resubmission creates are routed to
    the parent query. *)
Lemma continuation_routes_to_parent (q : Query) (req : RequestBuilder) (s : NostrSystem) :
  GetQuery (id (continuation q req)) s = JsMap.get (id q) (Queries s).
Proof.
  unfold continuation, new_Query. cbn [id].
  apply GetQuery_suffix.
  - apply Number_toString_nonempty.
  - apply Number_toString_digits.
Qed.

Lemma C2_suffix_routes_to_parent_witness :
  GetQuery "abc-2" ex_system = Some ex_query /\
  added (nth 0 (stores (OnEvent "abc-2" ex_event ex_system)) ex_store) = [ex_event].
Proof.
  destruct (C2_suffix_routes_to_parent ex_system "abc" "2" ex_event
              {| Address := "wss://relay.example/"; Settings := ex_settings;
                 Ephemeral := false |}) as [HG HE].
  - discriminate.
  - reflexivity.
  - split; [exact HG|].
    destruct (HE ex_query eq_refl) as (_ & Hst & _).
    specialize (Hst _ eq_refl).
    apply nth_error_nth with (d := ex_store) in Hst.
    change (nth 0 (stores (OnEvent "abc-2" ex_event ex_system)) ex_store
            = {| loading := loading ex_store; added := added ex_store ++ [ex_event] |})
      in Hst.
    rewrite Hst. reflexivity.
Defined.

Lemma network_traffic_publish (snap : SystemSnapshot) (called : list nat) :
  network_traffic (Publish snap :: map Notify called) = [].
Proof.
  unfold network_traffic. simpl.
  induction called as [|c called IH]; simpl; auto.
Qed.

Lemma publish_count_publish (snap : SystemSnapshot) (called : list nat) :
  publish_count (Publish snap :: map Notify called) = 1.
Proof.
  unfold publish_count. simpl. f_equal.
  induction called as [|c called IH]; simpl; auto.
Qed.

(** C3. A second submit call for a registered query whose filter set
    compares as unchanged, without skipDiff, sends nothing to any relay,
    creates no sub-query and returns the store of the registered query. *)
Theorem C3_unchanged_resubmit_is_silent
  (type : NoteStore) (req : RequestBuilder) (q : Query) (s : NostrSystem) :
  JsMap.get (rb_id req) (Queries s) = Some q ->
  diff_changed (diffFilters (filters q) (rb_build req)) = false ->
  skipDiff req = false ->
  let s' := snd (NostrSystem_Query type (Some req) s) in
  fst (NostrSystem_Query type (Some req) s) = feed q /\
  stores s' = stores s /\
  Sockets s' = Sockets s /\
  JsMap.keys (Queries s') = JsMap.keys (Queries s) /\
  (exists q',
      JsMap.get (rb_id req) (Queries s') = Some q' /\
      subQueries q' = subQueries q /\ filters q' = filters q /\
      feed q' = feed q) /\
  (forall k, k <> rb_id req ->
             JsMap.get k (Queries s') = JsMap.get k (Queries s)) /\
  exists es, log s' = log s ++ es /\ network_traffic es = [].
Proof.
  intros Hq Hd Hs s'. subst s'.
  rewrite (Query_unchanged type req q s Hq Hd Hs). cbn [fst snd].
  set (s1 := with_Queries _ _).
  destruct (changed_spec s1) as (HS & HQ & Hst & _ & _ & Hl).
  rewrite HS, HQ, Hst, Hl. subst s1. cbn.
  split; [reflexivity|]. split; [reflexivity|]. split; [reflexivity|].
  split. { apply keys_set_present. unfold JsMap.has. now rewrite Hq. }
  split. { eexists. split; [apply get_set_eq|]. cbn. repeat split. }
  split. { intros k Hk. now apply get_set_ne. }
  eexists. split; [reflexivity|].
  apply network_traffic_publish.
Qed.

Lemma C3_unchanged_resubmit_is_silent_witness :
  fst (NostrSystem_Query ex_store (Some ex_request) ex_system) = 0 /\
  stores (snd (NostrSystem_Query ex_store (Some ex_request) ex_system))
  = stores ex_system.
Proof.
  pose proof (C3_unchanged_resubmit_is_silent
                ex_store ex_request ex_query ex_system) as H.
  cbv zeta in H.
  destruct H as (H1 & H2 & _).
  - reflexivity.
  - reflexivity.
  - reflexivity.
  - split; [exact H1 | exact H2].
Defined.

(** C10 (amended). A submit call for a registered query whose filter set
    compares as unchanged, without skipDiff, un-cancels the query (nothing
    else in the registry changes, so the registry is as before when the
    query was not pending close), rebuilds the snapshot and runs a
    notification round over the live observer list in the same call.  The
    first registered observer is always called; all of them are, once each
    and in registration order, when no callback unregisters during the
    round. *)
Theorem C10_unchanged_resubmit_notifies
  (type : NoteStore) (req : RequestBuilder) (q : Query) (s : NostrSystem) :
  JsMap.get (rb_id req) (Queries s) = Some q ->
  diff_changed (diffFilters (filters q) (rb_build req)) = false ->
  skipDiff req = false ->
  let s' := snd (NostrSystem_Query type (Some req) s) in
  Queries s' = JsMap.set (rb_id req) (unCancel q) (Queries s) /\
  (closingAt q = None -> Queries s' = Queries s) /\
  snapshot s' = build_snapshot (Queries s') /\
  log s' = log s ++ Publish (snapshot s')
                      :: map Notify (snd (notify_round (stateHooks s))) /\
  stateHooks s' = fst (notify_round (stateHooks s)) /\
  (forall h hs, stateHooks s = h :: hs ->
                exists called, snd (notify_round (stateHooks s)) = cb_ref h :: called) /\
  ((forall h, In h (stateHooks s) -> cb_releases h = []) ->
   snd (notify_round (stateHooks s)) = map cb_ref (stateHooks s) /\
   stateHooks s' = stateHooks s).
Proof.
  intros Hq Hd Hs s'. subst s'.
  rewrite (Query_unchanged type req q s Hq Hd Hs). cbn [snd].
  after_changed. cbn [with_Queries stateHooks Queries log].
  split; [reflexivity|]. split.
  { intros Hopen. rewrite unCancel_open by assumption. now apply set_same. }
  split; [reflexivity|]. split; [reflexivity|]. split; [reflexivity|]. split.
  - intros h hs E. rewrite E. unfold notify_round. cbn [List.length notify_loop nth_error].
    destruct (notify_loop (List.length hs) 1 (run_callback h (h :: hs))) as [hs' called].
    cbn. eauto.
  - intros Hp. now rewrite (notify_round_passive _ Hp).
Qed.

Lemma C10_unchanged_resubmit_notifies_witness :
  log (snd (NostrSystem_Query ex_store (Some ex_request) ex_system))
  = log ex_system ++ [Publish (snapshot ex_system); Notify 2].
Proof.
  pose proof (C10_unchanged_resubmit_notifies
                ex_store ex_request ex_query ex_system) as H.
  cbv zeta in H.
  destruct H as (_ & _ & _ & H4 & _).
  - reflexivity.
  - reflexivity.
  - reflexivity.
  - rewrite H4. reflexivity.
Defined.

(** C10, counterexample.  With the observers [1; 2] registered, where 1
    unregisters itself when called, an unchanged resubmission of ["abc"]
    calls observer 1 only: observer 2 is not notified. *)
Lemma C10_not_every_observer_counterexample : ~ unchanged_resubmit_notifies_all.
Proof.
  intros H.
  destruct (H ex_store ex_request ex_query ex_system_two_observers
              eq_refl eq_refl eq_refl) as (_ & es & Hl & Hall).
  assert (Hc : log (snd (NostrSystem_Query ex_store (Some ex_request)
                           ex_system_two_observers))
               = log ex_system_two_observers
                 ++ [Publish (snapshot ex_system); Notify 1]) by reflexivity.
  rewrite Hc in Hl. apply app_inv_head in Hl. subst es.
  specialize (Hall hook_passive (or_intror (or_introl eq_refl))).
  destruct Hall as [E|[E|[]]]; discriminate E.
Qed.

(** ** The clean-up loop *)

Lemma cleanup_step_eq (now : Z) (s : NostrSystem) (ch : bool) (k : string) (v : Query) :
  cleanup_step now (s, ch) (k, v)
  = if past_due now v
    then (emit [SendClose (id v); ConsoleDebug k]
            (with_Queries (JsMap.delete k (Queries s)) s), true)
    else (s, ch).
Proof. reflexivity. Qed.

Lemma cleanup_fold_frame (now : Z) (l : list (string * Query)) :
  forall (s : NostrSystem) (ch : bool),
    Sockets (fst (fold_left (cleanup_step now) l (s, ch))) = Sockets s /\
    stateHooks (fst (fold_left (cleanup_step now) l (s, ch))) = stateHooks s /\
    snapshot (fst (fold_left (cleanup_step now) l (s, ch))) = snapshot s /\
    stores (fst (fold_left (cleanup_step now) l (s, ch))) = stores s /\
    log (fst (fold_left (cleanup_step now) l (s, ch)))
    = log s ++ flat_map (close_effects now) l /\
    snd (fold_left (cleanup_step now) l (s, ch))
    = ch || existsb (is_past_due now) l.
Proof.
  induction l as [|[k v] l IH]; intros s ch; cbn [fold_left flat_map existsb].
  - cbn. rewrite app_nil_r, orb_false_r. repeat split.
  - rewrite cleanup_step_eq.
    unfold close_effects at 1, is_past_due at 1. cbn [fst snd].
    destruct (past_due now v).
    + destruct (IH (emit [SendClose (id v); ConsoleDebug k]
                      (with_Queries (JsMap.delete k (Queries s)) s)) true)
        as (H1 & H2 & H3 & H4 & H5 & H6).
      rewrite H1, H2, H3, H4, H5, H6. cbn.
      rewrite <- app_assoc, orb_true_r. repeat split.
    + destruct (IH s ch) as (H1 & H2 & H3 & H4 & H5 & H6).
      rewrite H1, H2, H3, H4, H5, H6. repeat split.
Qed.

Lemma NoDup_keys_middle (pre post : list (string * Query)) (k : string) (v : Query) :
  NoDup (JsMap.keys (pre ++ (k, v) :: post)) ->
  ~ In k (JsMap.keys pre) /\ NoDup (JsMap.keys (pre ++ post)).
Proof.
  unfold JsMap.keys. rewrite !map_app. cbn [map fst]. intros H.
  pose proof (NoDup_remove_1 _ _ _ H) as H1.
  pose proof (NoDup_remove_2 _ _ _ H) as H2.
  split; [|exact H1]. intros Hin. apply H2. apply in_or_app. now left.
Qed.

(** The loop deletes the entry that it is visiting, so the part of the map
    already visited and kept ([pre]) and the part still to visit ([l]) make
    up the map at every iteration. *)
Lemma cleanup_fold_queries (now : Z) (l : list (string * Query)) :
  forall (pre : list (string * Query)) (s : NostrSystem) (ch : bool),
    Queries s = pre ++ l ->
    NoDup (JsMap.keys (pre ++ l)) ->
    Queries (fst (fold_left (cleanup_step now) l (s, ch)))
    = pre ++ filter (survives now) l.
Proof.
  induction l as [|[k v] l IH]; intros pre s ch HQ Hnd; cbn [fold_left filter].
  - cbn. now rewrite HQ.
  - rewrite cleanup_step_eq. unfold survives at 1. cbn [fst snd].
    destruct (NoDup_keys_middle _ _ _ _ Hnd) as [Hk Hnd'].
    destruct (past_due now v); cbn [negb].
    + apply IH; auto. cbn. rewrite HQ. now apply delete_middle.
    + rewrite (IH (pre ++ [(k, v)]) s ch).
      * now rewrite <- app_assoc.
      * now rewrite <- app_assoc.
      * now rewrite <- app_assoc.
Qed.

Lemma cleanup_spec (now : Z) (s : NostrSystem) :
  JsMap.wf (Queries s) ->
  Queries (cleanup now s) = filter (survives now) (Queries s) /\
  log (cleanup now s)
  = log s ++ flat_map (close_effects now) (Queries s)
      ++ (if existsb (is_past_due now) (Queries s)
          then Publish (build_snapshot (Queries (cleanup now s)))
                 :: map Notify (snd (notify_round (stateHooks s)))
          else []) /\
  (existsb (is_past_due now) (Queries s) = true ->
   snapshot (cleanup now s) = build_snapshot (Queries (cleanup now s))) /\
  Sockets (cleanup now s) = Sockets s /\
  stores (cleanup now s) = stores s.
Proof.
  intros Hwf. unfold cleanup.
  pose proof (cleanup_fold_frame now (Queries s) s false) as HF.
  pose proof (cleanup_fold_queries now (Queries s) [] s false eq_refl Hwf) as HQ.
  destruct HF as (H1 & H2 & H3 & H4 & H5 & H6).
  destruct (fold_left (cleanup_step now) (Queries s) (s, false)) as [s1 ch].
  cbn [fst snd app] in *. subst ch. cbn [orb].
  destruct (existsb (is_past_due now) (Queries s)).
  - destruct (changed_spec s1) as (HS & HQ' & Hst & Hsn & _ & Hl).
    rewrite HQ', Hl, Hsn, HS, Hst, H5, H2, HQ, H1, H4.
    rewrite <- app_assoc. repeat split.
  - rewrite HQ, H5, H1, H4, app_nil_r. repeat split. discriminate.
Qed.

Lemma filter_keys_incl {V} (f : string * V -> bool) (m : JsMap.t V) (k : string) :
  In k (JsMap.keys (filter f m)) -> In k (JsMap.keys m).
Proof.
  unfold JsMap.keys. rewrite !in_map_iff.
  intros (x & Hx & Hin). apply filter_In in Hin. exists x. tauto.
Qed.

Lemma get_filter {V} (f : string * V -> bool) (m : JsMap.t V) (k : string) :
  JsMap.wf m ->
  JsMap.get k (filter f m)
  = match JsMap.get k m with
    | Some v => if f (k, v) then Some v else None
    | None => None
    end.
Proof.
  unfold JsMap.wf. induction m as [|[k' v'] m IH]; intros Hnd; cbn [filter JsMap.get].
  - reflexivity.
  - cbn [JsMap.keys map fst] in Hnd. inversion Hnd as [|? ? Hni Hnd']; subst.
    destruct (String.eqb k k') eqn:E.
    + apply String.eqb_eq in E. subst k'.
      destruct (f (k, v')) eqn:F.
      * cbn [JsMap.get]. now rewrite String.eqb_refl.
      * apply get_None_keys. intros H. apply Hni.
        eapply filter_keys_incl; eauto.
    + destruct (f (k', v')); cbn [JsMap.get]; [rewrite E|]; now apply IH.
Qed.

Lemma publish_count_app (a b : list Effect) :
  publish_count (a ++ b) = publish_count a + publish_count b.
Proof. unfold publish_count. now rewrite filter_app, length_app. Qed.

Lemma publish_count_close_effects (now : Z) (l : list (string * Query)) :
  publish_count (flat_map (close_effects now) l) = 0.
Proof.
  induction l as [|[k v] l IH]; cbn [flat_map]; [reflexivity|].
  rewrite publish_count_app, IH. unfold close_effects. cbn [snd].
  destruct (past_due now v); reflexivity.
Qed.

Lemma past_due_iff (now : Z) (q : Query) :
  past_due now q = true <->
  exists t, closingAt q = Some t /\ t <> 0%Z /\ (t < now)%Z.
Proof.
  unfold past_due. destruct (closingAt q) as [t|].
  - rewrite andb_true_iff, negb_true_iff, Z.eqb_neq, Z.ltb_lt. split.
    + intros [H1 H2]. exists t. auto.
    + intros (t' & [= <-] & H1 & H2). auto.
  - split; [discriminate|]. intros (t & H & _). discriminate.
Qed.

(** A tick removes a past-due query, sends its close frame, and publishes
    exactly one snapshot. *)
Lemma cleanup_removes (now : Z) (s : NostrSystem) (k : string) (q : Query) :
  JsMap.wf (Queries s) ->
  JsMap.get k (Queries s) = Some q ->
  past_due now q = true ->
  JsMap.get k (Queries (cleanup now s)) = None /\
  exists es,
    log (cleanup now s) = log s ++ es /\
    In (SendClose (id q)) es /\
    publish_count es = 1 /\
    snapshot (cleanup now s) = build_snapshot (Queries (cleanup now s)).
Proof.
  intros Hwf Hq Hpd.
  destruct (cleanup_spec now s Hwf) as (HQ & Hl & Hsn & _).
  assert (Hex : existsb (is_past_due now) (Queries s) = true).
  { apply existsb_exists. exists (k, q). split; [now apply get_In | exact Hpd]. }
  rewrite Hex in Hl. split.
  - rewrite HQ, get_filter, Hq by assumption. unfold survives. cbn [snd].
    now rewrite Hpd.
  - eexists. split; [exact Hl|]. split; [|split].
    + apply in_or_app. left. apply in_flat_map. exists (k, q).
      split; [now apply get_In|]. unfold close_effects. cbn [snd fst].
      rewrite Hpd. now left.
    + now rewrite publish_count_app, publish_count_close_effects,
        publish_count_publish.
    + auto.
Qed.

(** A tick keeps a query that is not past due. *)
Lemma cleanup_keeps (now : Z) (s : NostrSystem) (k : string) (q : Query) :
  JsMap.wf (Queries s) ->
  JsMap.get k (Queries s) = Some q ->
  past_due now q = false ->
  JsMap.get k (Queries (cleanup now s)) = Some q.
Proof.
  intros Hwf Hq Hpd.
  destruct (cleanup_spec now s Hwf) as (HQ & _).
  rewrite HQ, get_filter, Hq by assumption. unfold survives. cbn [snd].
  now rewrite Hpd.
Qed.

(** A tick without a past-due query changes nothing and publishes nothing. *)
Lemma cleanup_idle (now : Z) (s : NostrSystem) :
  JsMap.wf (Queries s) ->
  existsb (is_past_due now) (Queries s) = false ->
  Queries (cleanup now s) = Queries s /\ log (cleanup now s) = log s.
Proof.
  intros Hwf Hex.
  destruct (cleanup_spec now s Hwf) as (HQ & Hl & _).
  rewrite Hex, app_nil_r in Hl.
  assert (Hall : forall kv, In kv (Queries s) -> is_past_due now kv = false).
  { intros kv Hin. destruct (is_past_due now kv) eqn:E; auto.
    assert (existsb (is_past_due now) (Queries s) = true)
      by (apply existsb_exists; eauto). congruence. }
  split.
  - rewrite HQ. clear -Hall. induction (Queries s) as [|kv l IH]; cbn [filter]; auto.
    unfold survives at 1. fold (is_past_due now kv).
    rewrite (Hall kv) by now left. cbn [negb]. f_equal.
    apply IH. intros kv' H. apply Hall. now right.
  - rewrite Hl. clear -Hall.
    induction (Queries s) as [|kv l IH]; cbn [flat_map].
    + now rewrite app_nil_r.
    + unfold close_effects at 1. fold (is_past_due now kv).
      rewrite (Hall kv) by now left. cbn [app].
      apply IH. intros kv' H. apply Hall. now right.
Qed.

Lemma wf_CancelQuery (now : Z) (sub : string) (s : NostrSystem) :
  JsMap.wf (Queries s) -> JsMap.wf (Queries (CancelQuery now sub s)).
Proof.
  intros Hwf. unfold CancelQuery.
  destruct (JsMap.get sub (Queries s)); [|exact Hwf].
  cbn. now apply wf_set.
Qed.

Lemma get_CancelQuery (now : Z) (sub : string) (s : NostrSystem) (q : Query) :
  JsMap.get sub (Queries s) = Some q ->
  JsMap.get sub (Queries (CancelQuery now sub s)) = Some (cancel now q).
Proof.
  intros Hq. unfold CancelQuery. rewrite Hq. cbn. apply get_set_eq.
Qed.

(** Whatever branch a resubmission takes, it leaves the query open. *)
Lemma resubmit_uncancels (type : NoteStore) (req : RequestBuilder) (q : Query)
  (s : NostrSystem) :
  JsMap.wf (Queries s) ->
  JsMap.get (rb_id req) (Queries s) = Some q ->
  JsMap.wf (Queries (snd (NostrSystem_Query type (Some req) s))) /\
  exists q',
    JsMap.get (rb_id req) (Queries (snd (NostrSystem_Query type (Some req) s)))
    = Some q' /\ closingAt q' = None.
Proof.
  intros Hwf Hq.
  destruct (Query_registered type req q s Hq) as [[D K]|Hc];
    [rewrite (Query_unchanged type req q s Hq D K)
    |rewrite (Query_changed type req q s Hq Hc)];
    cbn [snd]; after_changed; cbn;
    (split; [now apply wf_set|]);
    eexists; (split; [apply get_set_eq | reflexivity]).
Qed.

(** C8. On a tick of the clean-up loop at time [now], every query whose
    closingAt timestamp is past due gets its close frame sent and is removed
    from the registry, every other query stays, and the snapshot is
    published once if a query was removed and not at all otherwise.  So a
    cancel at time [t] followed by a tick after [t] removes the query with
    exactly one publication, and a resubmission (which un-cancels the
    query) before the tick keeps it.  Timestamps are clock readings in
    milliseconds, hence not 0. *)
Theorem C8_cleanup_tick (now : Z) (s : NostrSystem) :
  JsMap.wf (Queries s) ->
  (forall k q t,
      JsMap.get k (Queries s) = Some q ->
      closingAt q = Some t -> t <> 0%Z -> (t < now)%Z ->
      JsMap.get k (Queries (cleanup now s)) = None /\
      exists es, log (cleanup now s) = log s ++ es /\ In (SendClose (id q)) es) /\
  (forall k q,
      JsMap.get k (Queries s) = Some q ->
      (closingAt q = None \/ exists t, closingAt q = Some t /\ (now <= t)%Z) ->
      JsMap.get k (Queries (cleanup now s)) = Some q) /\
  (exists es,
      log (cleanup now s) = log s ++ es /\
      publish_count es
      = if existsb (is_past_due now) (Queries s) then 1 else 0) /\
  (existsb (is_past_due now) (Queries s) = true ->
   snapshot (cleanup now s) = build_snapshot (Queries (cleanup now s))) /\
  (forall sub q t,
      JsMap.get sub (Queries s) = Some q ->
      leaveOpen q = false -> t <> 0%Z -> (t < now)%Z ->
      JsMap.get sub (Queries (cleanup now (CancelQuery t sub s))) = None /\
      exists es,
        log (cleanup now (CancelQuery t sub s)) = log (CancelQuery t sub s) ++ es /\
        publish_count es = 1) /\
  (forall sub q t type req,
      JsMap.get sub (Queries s) = Some q ->
      rb_id req = sub ->
      exists q',
        JsMap.get sub
          (Queries (cleanup now
                      (snd (NostrSystem_Query type (Some req) (CancelQuery t sub s)))))
        = Some q').
Proof.
  intros Hwf. repeat apply conj.
  - intros k q t Hq Ht H0 Hlt.
    assert (Hpd : past_due now q = true) by (apply past_due_iff; eauto).
    destruct (cleanup_removes now s k q Hwf Hq Hpd) as (H1 & es & H2 & H3 & _).
    eauto.
  - intros k q Hq Hopen. apply cleanup_keeps; auto.
    unfold past_due. destruct Hopen as [->|(t & -> & Hle)]; [reflexivity|].
    apply andb_false_iff. right. now apply Z.ltb_ge.
  - destruct (cleanup_spec now s Hwf) as (_ & Hl & _).
    eexists. split; [exact Hl|].
    rewrite publish_count_app, publish_count_close_effects.
    destruct (existsb (is_past_due now) (Queries s)); [|reflexivity].
    now rewrite publish_count_publish.
  - now destruct (cleanup_spec now s Hwf) as (_ & _ & Hsn & _).
  - intros sub q t Hq Hlo H0 Hlt.
    pose proof (wf_CancelQuery t sub s Hwf) as Hwf1.
    pose proof (get_CancelQuery t sub s q Hq) as Hq1.
    assert (Hpd : past_due now (cancel t q) = true).
    { apply past_due_iff. exists t. unfold cancel. rewrite Hlo. cbn. auto. }
    destruct (cleanup_removes now _ sub _ Hwf1 Hq1 Hpd) as (H1 & es & H2 & _ & H3 & _).
    eauto.
  - intros sub q t type req Hq <-.
    pose proof (wf_CancelQuery t (rb_id req) s Hwf) as Hwf1.
    pose proof (get_CancelQuery t (rb_id req) s q Hq) as Hq1.
    destruct (resubmit_uncancels type req _ _ Hwf1 Hq1) as (Hwf2 & q' & Hq' & Hopen).
    exists q'. apply cleanup_keeps; auto.
    unfold past_due. now rewrite Hopen.
Qed.

Lemma ex_system_wf : JsMap.wf (Queries ex_system).
Proof. unfold JsMap.wf. cbn. repeat constructor. simpl. tauto. Qed.

Lemma C8_cleanup_tick_witness :
  JsMap.get "abc" (Queries (cleanup 7000 (CancelQuery 1000 "abc" ex_system))) = None /\
  exists q',
    JsMap.get "abc"
      (Queries (cleanup 7000
                  (snd (NostrSystem_Query ex_store (Some ex_request)
                          (CancelQuery 1000 "abc" ex_system))))) = Some q'.
Proof.
  destruct (C8_cleanup_tick 7000 ex_system) as (_ & _ & _ & _ & Hc & Hu).
  - unfold JsMap.wf. cbn. repeat constructor. simpl. tauto.
  - split.
    + apply (Hc "abc" ex_query 1000%Z); reflexivity || discriminate.
    + apply (Hu "abc" ex_query 1000%Z ex_store ex_request); reflexivity.
Defined.

Example tick_removes_cancelled :
  Queries (cleanup 7000 (CancelQuery 1000 "abc" ex_system)) = [].
Proof. reflexivity. Qed.

Example tick_before_deadline_keeps :
  JsMap.keys (Queries (cleanup 900 (CancelQuery 1000 "abc" ex_system))) = ["abc"].
Proof. reflexivity. Qed.

(** ** The snapshot publisher *)

(** The snapshot lists, for every tracked query in registry order, its id,
    its filters, the filters of its sub-queries flattened one level, and
    whether it is closing. *)
Lemma build_snapshot_entries (qs : JsMap.t Query) :
  queries (build_snapshot qs)
  = map (fun kv =>
           {| snap_id := id (snd kv);
              snap_filters := filters (snd kv);
              snap_subFilters := List.concat (map filters (subQueries (snd kv)));
              snap_closing := match closingAt (snd kv) with
                              | Some _ => true
                              | None => false
                              end |}) qs.
Proof.
  unfold build_snapshot, JsMap.values. cbn [queries]. now rewrite map_map.
Qed.

Lemma AddQuery_publishes (type : NoteStore) (rb : RequestBuilder) (s : NostrSystem) :
  snapshot (snd (AddQuery type rb s))
  = build_snapshot (Queries (snd (AddQuery type rb s))) /\
  exists es,
    log (snd (AddQuery type rb s))
    = log s ++ es ++ Publish (snapshot (snd (AddQuery type rb s)))
                       :: map Notify (snd (notify_round (stateHooks s))).
Proof.
  unfold AddQuery. cbn [new_store snd].
  after_changed. cbn. split; [reflexivity|].
  eexists. now rewrite <- app_assoc.
Qed.

(** Every submit call for a request publishes a snapshot of the registry as
    the call leaves it and runs a notification round. *)
Lemma Query_publishes (type : NoteStore) (req : RequestBuilder) (s : NostrSystem) :
  snapshot (snd (NostrSystem_Query type (Some req) s))
  = build_snapshot (Queries (snd (NostrSystem_Query type (Some req) s))) /\
  exists es,
    log (snd (NostrSystem_Query type (Some req) s))
    = log s ++ es ++ Publish (snapshot (snd (NostrSystem_Query type (Some req) s)))
                       :: map Notify (snd (notify_round (stateHooks s))).
Proof.
  destruct (JsMap.get (rb_id req) (Queries s)) as [q|] eqn:Hq.
  - destruct (Query_registered type req q s Hq) as [[D K]|Hc].
    + rewrite (Query_unchanged type req q s Hq D K). cbn [snd].
      after_changed. cbn. split; [reflexivity|]. now exists [].
    + rewrite (Query_changed type req q s Hq Hc). cbn [snd].
      after_changed. cbn. split; [reflexivity|].
      eexists. now rewrite <- app_assoc.
  - unfold NostrSystem_Query. rewrite Hq. apply AddQuery_publishes.
Qed.

(** A tick that removes a query publishes a snapshot of the registry as the
    tick leaves it and runs a notification round. *)
Lemma cleanup_publishes (now : Z) (s : NostrSystem) :
  existsb (is_past_due now) (Queries s) = true ->
  snapshot (cleanup now s) = build_snapshot (Queries (cleanup now s)) /\
  exists es,
    log (cleanup now s)
    = log s ++ es ++ Publish (snapshot (cleanup now s))
                       :: map Notify (snd (notify_round (stateHooks s))).
Proof.
  intros Hex. unfold cleanup.
  destruct (cleanup_fold_frame now (Queries s) s false) as (_ & H2 & _ & _ & H5 & H6).
  destruct (fold_left (cleanup_step now) (Queries s) (s, false)) as [s1 ch].
  cbn [fst snd orb] in *. rewrite H6, Hex.
  destruct (changed_spec s1) as (_ & HQ & _ & Hsn & _ & Hl).
  rewrite HQ, Hsn, Hl, H5, H2. split; [reflexivity|].
  eexists. now rewrite <- app_assoc.
Qed.

Lemma CancelQuery_frame (now : Z) (sub : string) (s : NostrSystem) :
  snapshot (CancelQuery now sub s) = snapshot s /\
  log (CancelQuery now sub s) = log s /\
  stateHooks (CancelQuery now sub s) = stateHooks s /\
  Sockets (CancelQuery now sub s) = Sockets s.
Proof.
  unfold CancelQuery. destruct (JsMap.get sub (Queries s)); repeat split.
Qed.

(** C5 (amended). A submit call for a request (creating the query,
    adding a continuation, or finding the request unchanged) and a tick of
    the clean-up loop that removes a query each publish a snapshot that
    lists, for every tracked query, its id, filters, flattened sub-query
    filters and closing flag, and then run a notification round over the
    live observer list; the round calls every registered observer, in
    registration order, when no callback unregisters during it.
    [CancelQuery] only marks the query: it publishes nothing and calls no
    observer, the published snapshot is the one from before the call. *)
Theorem C5_snapshot_published_on_submit_and_sweep
  (s : NostrSystem) (type : NoteStore) (req : RequestBuilder) (now : Z) :
  published s (snd (NostrSystem_Query type (Some req) s)) /\
  (existsb (is_past_due now) (Queries s) = true -> published s (cleanup now s)) /\
  ((forall h, In h (stateHooks s) -> cb_releases h = []) ->
   snd (notify_round (stateHooks s)) = map cb_ref (stateHooks s)) /\
  (forall s', snapshot s' = build_snapshot (Queries s') ->
     queries (snapshot s')
     = map (fun kv =>
              {| snap_id := id (snd kv);
                 snap_filters := filters (snd kv);
                 snap_subFilters := List.concat (map filters (subQueries (snd kv)));
                 snap_closing := match closingAt (snd kv) with
                                 | Some _ => true
                                 | None => false
                                 end |}) (Queries s')) /\
  (forall t sub,
     snapshot (CancelQuery t sub s) = snapshot s /\
     log (CancelQuery t sub s) = log s /\
     stateHooks (CancelQuery t sub s) = stateHooks s).
Proof.
  split; [|split; [|split; [|split]]].
  - exact (Query_publishes type req s).
  - intros Hex. exact (cleanup_publishes now s Hex).
  - intros Hp. now rewrite (notify_round_passive _ Hp).
  - intros s' ->. apply build_snapshot_entries.
  - intros t sub. destruct (CancelQuery_frame t sub s) as (H1 & H2 & H3 & _). auto.
Qed.

Lemma C5_snapshot_published_on_submit_and_sweep_witness :
  published ex_system
    (snd (NostrSystem_Query ex_store (Some ex_request_changed) ex_system)) /\
  log (CancelQuery 1000 "abc" ex_system) = log ex_system.
Proof.
  destruct (C5_snapshot_published_on_submit_and_sweep
              ex_system ex_store ex_request_changed 7000) as (H1 & _ & _ & _ & H4).
  split; [exact H1|]. apply (H4 1000%Z "abc").
Defined.

(** C5, counterexample.  After [CancelQuery] on the registered query
    ["abc"] the published snapshot still shows the query as not closing,
    and the observer has not been called. *)
Lemma C5_cancel_counterexample : ~ cancel_republishes.
Proof.
  intros H.
  destruct (H 1000%Z "abc" ex_system ex_query eq_refl) as [Hs _].
  vm_compute in Hs. discriminate Hs.
Qed.

Example cancel_leaves_snapshot_stale :
  map snap_closing (queries (snapshot (CancelQuery 1000 "abc" ex_system))) = [false] /\
  map closing (JsMap.values (Queries (CancelQuery 1000 "abc" ex_system))) = [true].
Proof. split; reflexivity. Qed.

(** ** The connection pool *)

Lemma ConnectToRelay_new (sanitize : string -> option string) (ok : bool)
  (a addr : string) (o : RelaySettings) (s : NostrSystem) :
  sanitize a = Some addr ->
  JsMap.get addr (Sockets s) = None ->
  Sockets (ConnectToRelay sanitize ok a o s)
  = Sockets s ++ [(addr, {| Address := addr; Settings := o; Ephemeral := false |})] /\
  log (ConnectToRelay sanitize ok a o s)
  = log s ++ NewConnection addr o false :: Connect addr
               :: (if ok then [] else [ConsoleError]).
Proof.
  intros Ha Hg. unfold ConnectToRelay, JsMap.has. rewrite Ha, Hg. cbn [negb].
  destruct ok; cbn; rewrite set_absent by assumption;
    (split; [reflexivity|]); rewrite <- ?app_assoc; reflexivity.
Qed.

Lemma ConnectToRelay_existing (sanitize : string -> option string) (ok : bool)
  (a addr : string) (o : RelaySettings) (c : Connection) (s : NostrSystem) :
  sanitize a = Some addr ->
  JsMap.get addr (Sockets s) = Some c ->
  ConnectToRelay sanitize ok a o s
  = with_Sockets
      (JsMap.set addr {| Address := Address c; Settings := o; Ephemeral := Ephemeral c |}
         (Sockets s)) s.
Proof.
  intros Ha Hg. unfold ConnectToRelay, JsMap.has. now rewrite Ha, Hg.
Qed.

Lemma wf_ConnectToRelay (sanitize : string -> option string) (ok : bool)
  (a : string) (o : RelaySettings) (s : NostrSystem) :
  JsMap.wf (Sockets s) -> JsMap.wf (Sockets (ConnectToRelay sanitize ok a o s)).
Proof.
  intros Hwf. unfold ConnectToRelay.
  destruct (sanitize a) as [addr|]; [|exact Hwf].
  destruct (negb (JsMap.has addr (Sockets s))).
  - destruct ok; cbn; now apply wf_set.
  - destruct (JsMap.get addr (Sockets s)); cbn; [now apply wf_set | exact Hwf].
Qed.

Lemma wf_ConnectEphemeralRelay (sanitize : string -> option string) (ok : bool)
  (a : string) (s : NostrSystem) :
  JsMap.wf (Sockets s) ->
  JsMap.wf (Sockets (snd (ConnectEphemeralRelay sanitize ok a s))).
Proof.
  intros Hwf. unfold ConnectEphemeralRelay.
  destruct (sanitize a) as [addr|]; [|exact Hwf].
  destruct (negb (JsMap.has addr (Sockets s))); [|exact Hwf].
  destruct ok; cbn; now apply wf_set.
Qed.

Lemma wf_DisconnectRelay (a : string) (s : NostrSystem) :
  JsMap.wf (Sockets s) -> JsMap.wf (Sockets (DisconnectRelay a s)).
Proof.
  intros Hwf. unfold DisconnectRelay.
  destruct (JsMap.get a (Sockets s)); [|exact Hwf]. cbn. now apply wf_delete.
Qed.

Lemma count_le_1 {V} (k : string) (m : JsMap.t V) :
  JsMap.wf m -> JsMap.count k m <= 1.
Proof. intros Hwf. rewrite count_wf by assumption. destruct (JsMap.has k m); lia. Qed.

(** C7. Two connect calls whose addresses normalise to the same string
    leave exactly one connection under that string: the first call creates
    it when the pool has none, the second call writes the new settings into
    the connection that is there and creates no socket.  At most one
    connection per key holds after every connect call. *)
Theorem C7_one_connection_per_address
  (sanitize : string -> option string) (s : NostrSystem)
  (a1 a2 addr : string) (o1 o2 : RelaySettings) (ok1 ok2 : bool) :
  JsMap.wf (Sockets s) ->
  sanitize a1 = Some addr ->
  sanitize a2 = Some addr ->
  let s1 := ConnectToRelay sanitize ok1 a1 o1 s in
  let s2 := ConnectToRelay sanitize ok2 a2 o2 s1 in
  JsMap.count addr (Sockets s1) = 1 /\
  JsMap.count addr (Sockets s2) = 1 /\
  (JsMap.get addr (Sockets s) = None ->
   JsMap.get addr (Sockets s1)
   = Some {| Address := addr; Settings := o1; Ephemeral := false |} /\
   log s1 = log s ++ NewConnection addr o1 false :: Connect addr
                       :: (if ok1 then [] else [ConsoleError])) /\
  (exists c,
      JsMap.get addr (Sockets s1) = Some c /\
      JsMap.get addr (Sockets s2)
      = Some {| Address := Address c; Settings := o2; Ephemeral := Ephemeral c |}) /\
  JsMap.keys (Sockets s2) = JsMap.keys (Sockets s1) /\
  log s2 = log s1 /\
  (forall ok a o s0,
      JsMap.wf (Sockets s0) ->
      JsMap.wf (Sockets (ConnectToRelay sanitize ok a o s0)) /\
      forall k, JsMap.count k (Sockets (ConnectToRelay sanitize ok a o s0)) <= 1).
Proof.
  intros Hwf H1 H2 s1 s2.
  assert (Hwf1 : JsMap.wf (Sockets s1)) by now apply wf_ConnectToRelay.
  assert (Hwf2 : JsMap.wf (Sockets s2)) by now apply wf_ConnectToRelay.
  assert (Hc : exists c, JsMap.get addr (Sockets s1) = Some c).
  { subst s1. destruct (JsMap.get addr (Sockets s)) as [c|] eqn:E.
    - rewrite (ConnectToRelay_existing _ ok1 a1 addr o1 c s H1 E). cbn.
      rewrite get_set_eq. eauto.
    - destruct (ConnectToRelay_new _ ok1 a1 addr o1 s H1 E) as [-> _].
      rewrite <- (set_absent addr _ _ E), get_set_eq. eauto. }
  destruct Hc as [c Hc].
  assert (E2 : s2 = with_Sockets
                      (JsMap.set addr {| Address := Address c; Settings := o2;
                                         Ephemeral := Ephemeral c |} (Sockets s1)) s1).
  { subst s2. now apply ConnectToRelay_existing. }
  assert (Hh1 : JsMap.has addr (Sockets s1) = true).
  { unfold JsMap.has. now rewrite Hc. }
  split. { rewrite count_wf, Hh1 by assumption. reflexivity. }
  split.
  { rewrite count_wf by assumption. rewrite E2. cbn. unfold JsMap.has.
    now rewrite get_set_eq. }
  split.
  { intros E. subst s1.
    destruct (ConnectToRelay_new _ ok1 a1 addr o1 s H1 E) as [HS HL].
    split; [|exact HL].
    rewrite HS, <- (set_absent addr _ _ E). apply get_set_eq. }
  split. { exists c. split; [exact Hc|]. rewrite E2. cbn. apply get_set_eq. }
  split. { rewrite E2. cbn. now apply keys_set_present. }
  split. { rewrite E2. reflexivity. }
  intros ok a o s0 Hwf0. split.
  - now apply wf_ConnectToRelay.
  - intros k. apply count_le_1. now apply wf_ConnectToRelay.
Qed.

Lemma C7_one_connection_per_address_witness :
  JsMap.count "wss://relay.example/"
    (Sockets (ConnectToRelay trailing_slash true "wss://relay.example/"
                {| read := true; write := false |}
                (ConnectToRelay trailing_slash true "wss://relay.example" ex_settings
                   new_NostrSystem))) = 1.
Proof.
  destruct (C7_one_connection_per_address trailing_slash new_NostrSystem
              "wss://relay.example" "wss://relay.example/" "wss://relay.example/"
              ex_settings {| read := true; write := false |} true true)
    as (_ & H & _).
  - constructor.
  - reflexivity.
  - reflexivity.
  - exact H.
Defined.

(** [DisconnectRelay] removes and closes the connection stored under the
    address it is given. *)
Lemma DisconnectRelay_tracked (a : string) (c : Connection) (s : NostrSystem) :
  JsMap.wf (Sockets s) ->
  JsMap.get a (Sockets s) = Some c ->
  JsMap.get a (Sockets (DisconnectRelay a s)) = None /\
  log (DisconnectRelay a s) = log s ++ [Close (Address c)].
Proof.
  intros Hwf Hg. unfold DisconnectRelay. rewrite Hg. cbn.
  split; [now apply get_delete_eq | reflexivity].
Qed.

Lemma DisconnectRelay_untracked (a : string) (s : NostrSystem) :
  JsMap.get a (Sockets s) = None -> DisconnectRelay a s = s.
Proof. intros Hg. unfold DisconnectRelay. now rewrite Hg. Qed.

(** Calling [DisconnectRelay] twice is calling it once. *)
Lemma DisconnectRelay_idempotent (a : string) (s : NostrSystem) :
  JsMap.wf (Sockets s) ->
  DisconnectRelay a (DisconnectRelay a s) = DisconnectRelay a s.
Proof.
  intros Hwf. destruct (JsMap.get a (Sockets s)) as [c|] eqn:Hg.
  - apply DisconnectRelay_untracked.
    now destruct (DisconnectRelay_tracked a c s Hwf Hg).
  - rewrite (DisconnectRelay_untracked a s Hg).
    now apply DisconnectRelay_untracked.
Qed.

(** C9, the defect.  [ConnectToRelay] stores a connection under the
    normalised address, but [DisconnectRelay] looks it up under the address
    as given: for an address that is not in normal form, disconnecting
    right after connecting finds nothing, so the connection stays in the
    pool and is not closed. *)
Theorem C9_DisconnectRelay_skips_normalisation
  (sanitize : string -> option string) (ok : bool) (a addr : string)
  (o : RelaySettings) (s : NostrSystem) :
  sanitize a = Some addr ->
  a <> addr ->
  JsMap.get a (Sockets s) = None ->
  JsMap.get addr (Sockets s) = None ->
  let s1 := ConnectToRelay sanitize ok a o s in
  JsMap.get addr (Sockets s1)
  = Some {| Address := addr; Settings := o; Ephemeral := false |} /\
  DisconnectRelay a s1 = s1.
Proof.
  intros Ha Hne Hga Hgaddr s1. subst s1.
  destruct (ConnectToRelay_new _ ok a addr o s Ha Hgaddr) as [HS _].
  split.
  - rewrite HS, <- (set_absent addr _ _ Hgaddr). apply get_set_eq.
  - apply DisconnectRelay_untracked.
    rewrite HS, <- (set_absent addr _ _ Hgaddr).
    rewrite get_set_ne by congruence. exact Hga.
Qed.

Lemma C9_DisconnectRelay_skips_normalisation_witness :
  DisconnectRelay "wss://relay.example"
    (ConnectToRelay trailing_slash true "wss://relay.example" ex_settings new_NostrSystem)
  = ConnectToRelay trailing_slash true "wss://relay.example" ex_settings new_NostrSystem.
Proof.
  apply (C9_DisconnectRelay_skips_normalisation trailing_slash true
           "wss://relay.example" "wss://relay.example/" ex_settings new_NostrSystem).
  - reflexivity.
  - discriminate.
  - reflexivity.
  - reflexivity.
Defined.

Example disconnect_normalised_address :
  Sockets (DisconnectRelay "wss://relay.example/"
             (ConnectToRelay trailing_slash true "wss://relay.example" ex_settings
                new_NostrSystem)) = [].
Proof. reflexivity. Qed.

(** ** [WriteOnceToRelay] *)

Lemma write_step_invariant (w : WriteOnce) (t : Z) (e : WriteEvent) :
  timed_out_or_waiting w ->
  (e = Connected -> (write_timeout <= t)%Z) ->
  timed_out_or_waiting (write_step w (t, e)).
Proof.
  unfold timed_out_or_waiting, write_step, advance.
  intros [(Ht & Hp & Ha)|(Ht & Hp & Hs)] He.
  - rewrite Ht. destruct (write_timeout <=? t)%Z eqn:L.
    + right. unfold fire_timer, settle. rewrite Ht. cbn. rewrite Hp.
      destruct e; cbn; [tauto|]. unfold on_sent. cbn. rewrite Ha. cbn. tauto.
    + destruct e.
      * apply Z.leb_gt in L. specialize (He eq_refl). lia.
      * left. unfold on_sent. rewrite Ha. tauto.
  - rewrite Ht. right. destruct e; cbn; [tauto|].
    unfold on_sent, settle. destruct (awaiting w); cbn; rewrite Hp; cbn; tauto.
Qed.

Lemma write_run_invariant (events : list (Z * WriteEvent)) :
  forall w,
    timed_out_or_waiting w ->
    (forall t, In (t, Connected) events -> (write_timeout <= t)%Z) ->
    timed_out_or_waiting (fold_left write_step events w).
Proof.
  induction events as [|[t e] events IH]; intros w Hw Hev; cbn [fold_left]; auto.
  apply IH.
  - apply write_step_invariant; auto. intros ->. apply Hev. now left.
  - intros t' Hin. apply Hev. now right.
Qed.

Lemma write_step_connected_early (address : string) (ev : TaggedRawEvent) (tc : Z) :
  (tc < write_timeout)%Z ->
  write_step (WriteOnce_start address ev) (tc, Connected)
  = on_connected (WriteOnce_start address ev).
Proof.
  intros Htc. unfold write_step, advance. cbn [timer WriteOnce_start].
  apply Z.leb_gt in Htc. now rewrite Htc.
Qed.

(** C6 (amended).  The five-second timer guards the connection phase
    only.  If the connection does not report that it is connected before
    the timer runs, the promise is rejected when the timer runs, 5000 ms
    after the call.  If it does, the timer is cleared: the event is sent,
    and when the send is acknowledged the connection is closed and the
    promise is fulfilled; while the acknowledgement is missing the promise
    stays pending and no timer is armed. *)
Theorem C6_write_once_timeout_covers_connecting
  (address : string) (ev : TaggedRawEvent) (events : list (Z * WriteEvent))
  (tc ts : Z) :
  (forall t, In (t, Connected) events -> (write_timeout <= t)%Z) ->
  (tc < write_timeout)%Z ->
  (tc <= ts)%Z ->
  (promise (WriteOnceToRelay address ev events) = Rejected /\
   settledAt (WriteOnceToRelay address ev events) = Some 5000%Z) /\
  (promise (WriteOnceToRelay address ev [(tc, Connected); (ts, Sent)]) = Fulfilled /\
   settledAt (WriteOnceToRelay address ev [(tc, Connected); (ts, Sent)]) = Some ts /\
   w_log (WriteOnceToRelay address ev [(tc, Connected); (ts, Sent)])
   = [NewConnection address {| read := false; write := true |} true;
      Connect address; SendAsync address ev; Close address]) /\
  (promise (WriteOnceToRelay address ev [(tc, Connected)]) = Pending /\
   timer (WriteOnceToRelay address ev [(tc, Connected)]) = None).
Proof.
  intros Hev Htc Hts. split; [|split].
  - assert (Hinv : timed_out_or_waiting
                     (fold_left write_step events (WriteOnce_start address ev))).
    { apply write_run_invariant; auto. left. cbn. auto. }
    unfold WriteOnceToRelay, fire_timer, settle.
    destruct Hinv as [(Ht & Hp & _)|(Ht & Hp & Hs)]; rewrite Ht; cbn.
    + rewrite Hp. cbn. auto.
    + auto.
  - unfold WriteOnceToRelay. cbn [fold_left].
    rewrite write_step_connected_early by assumption. cbn. auto.
  - unfold WriteOnceToRelay. cbn [fold_left].
    rewrite write_step_connected_early by assumption. cbn. auto.
Qed.

Lemma C6_write_once_timeout_covers_connecting_witness :
  promise (WriteOnceToRelay "wss://relay.example/" ex_event []) = Rejected /\
  promise (WriteOnceToRelay "wss://relay.example/" ex_event
             [(100%Z, Connected); (300%Z, Sent)]) = Fulfilled.
Proof.
  destruct (C6_write_once_timeout_covers_connecting
              "wss://relay.example/" ex_event [] 100 300)
    as ((H1 & _) & (H2 & _) & _).
  - intros t [].
  - reflexivity.
  - discriminate.
  - split; [exact H1 | exact H2].
Defined.

(** C6, counterexample.  The connection reports that it is connected
    100 ms after the call and the send is never acknowledged: the timer
    was cleared, so the promise is never rejected. *)
Lemma C6_write_timeout_counterexample : ~ write_rejects_unless_acknowledged.
Proof.
  intros H.
  specialize (H "wss://relay.example/" ex_event [(100%Z, Connected)]).
  assert (Hno : forall t, In (t, Sent) [(100%Z, Connected)] -> (write_timeout < t)%Z).
  { intros t [E|[]]. discriminate E. }
  specialize (H Hno). discriminate H.
Qed.

Example write_connected_late :
  promise (WriteOnceToRelay "wss://relay.example/" ex_event
             [(6000%Z, Connected); (6100%Z, Sent)]) = Rejected.
Proof. reflexivity. Qed.

(** ** Reachable states are well formed *)

Lemma In_set {V} (k k0 : string) (v v0 : V) (m : JsMap.t V) :
  In (k, v) (JsMap.set k0 v0 m) -> (k = k0 /\ v = v0) \/ In (k, v) m.
Proof.
  induction m as [|[k' v'] m IH]; simpl.
  - intros [[= <- <-]|[]]. auto.
  - destruct (String.eqb k0 k') eqn:E; simpl.
    + apply String.eqb_eq in E. subst k'.
      intros [[= <- <-]|H]; auto.
    + intros [H|H]; auto. destruct (IH H); auto.
Qed.

Lemma In_delete {V} (k k0 : string) (v : V) (m : JsMap.t V) :
  In (k, v) (JsMap.delete k0 m) -> In (k, v) m.
Proof.
  induction m as [|[k' v'] m IH]; simpl; auto.
  destruct (String.eqb k0 k'); simpl; intuition.
Qed.

(** The invariant reads the two maps and the size of the heap only. *)
Lemma invariant_frame (s s' : NostrSystem) :
  Sockets s' = Sockets s ->
  Queries s' = Queries s ->
  List.length (stores s') = List.length (stores s) ->
  invariant s -> invariant s'.
Proof.
  intros HS HQ Hl [H1 H2 H3 H4].
  constructor; rewrite ?HS, ?HQ, ?Hl; assumption.
Qed.

Lemma invariant_new : invariant new_NostrSystem.
Proof.
  constructor.
  - unfold JsMap.wf. cbn. constructor.
  - unfold JsMap.wf. cbn. constructor.
  - intros k q [].
  - intros k c [].
Qed.

Lemma invariant_changed (s : NostrSystem) : invariant s -> invariant (changed s).
Proof.
  destruct (changed_spec s) as (HS & HQ & Hst & _).
  apply invariant_frame; auto. now rewrite Hst.
Qed.

Lemma invariant_set_query (k : string) (q : Query) (s : NostrSystem) :
  invariant s -> id q = k -> feed q < List.length (stores s) ->
  invariant (with_Queries (JsMap.set k q (Queries s)) s).
Proof.
  intros [H1 H2 H3 H4] Hid Hf. constructor; cbn; auto.
  - now apply wf_set.
  - intros k' q' Hin. apply In_set in Hin. destruct Hin as [[-> ->]|Hin]; auto.
Qed.

Lemma invariant_set_socket (k : string) (c : Connection) (s : NostrSystem) :
  invariant s -> Address c = k ->
  invariant (with_Sockets (JsMap.set k c (Sockets s)) s).
Proof.
  intros [H1 H2 H3 H4] Ha. constructor; cbn; auto.
  - now apply wf_set.
  - intros k' c' Hin. apply In_set in Hin. destruct Hin as [[-> ->]|Hin]; auto.
Qed.

Lemma invariant_new_store (type : NoteStore) (s : NostrSystem) :
  invariant s -> invariant (snd (new_store type s)).
Proof.
  intros [H1 H2 H3 H4]. constructor; cbn; auto.
  intros k q Hin. destruct (H3 k q Hin) as [Hid Hf]. split; auto.
  rewrite length_app. cbn. lia.
Qed.

Lemma invariant_ConnectToRelay sanitize ok a o s :
  invariant s -> invariant (ConnectToRelay sanitize ok a o s).
Proof.
  intros Hinv. unfold ConnectToRelay.
  destruct (sanitize a) as [addr|].
  - destruct (negb (JsMap.has addr (Sockets s))).
    + assert (H : invariant
                    (with_Sockets
                       (JsMap.set addr {| Address := addr; Settings := o;
                                          Ephemeral := false |} (Sockets s)) s))
        by now apply invariant_set_socket.
      destruct ok; revert H; apply invariant_frame; reflexivity.
    + destruct (JsMap.get addr (Sockets s)) as [c|] eqn:E.
      * apply invariant_set_socket; auto. cbn.
        apply get_In in E. now apply (inv_sockets_ok s Hinv).
      * revert Hinv. apply invariant_frame; reflexivity.
  - revert Hinv. apply invariant_frame; reflexivity.
Qed.

Lemma invariant_ConnectEphemeralRelay sanitize ok a s :
  invariant s -> invariant (snd (ConnectEphemeralRelay sanitize ok a s)).
Proof.
  intros Hinv. unfold ConnectEphemeralRelay.
  destruct (sanitize a) as [addr|].
  - destruct (negb (JsMap.has addr (Sockets s))); [|exact Hinv].
    assert (H : invariant
                  (with_Sockets
                     (JsMap.set addr
                        {| Address := addr;
                           Settings := {| read := true; write := false |};
                           Ephemeral := true |} (Sockets s)) s))
      by now apply invariant_set_socket.
    destruct ok; revert H; apply invariant_frame; reflexivity.
  - revert Hinv. apply invariant_frame; reflexivity.
Qed.

Lemma invariant_DisconnectRelay a s :
  invariant s -> invariant (DisconnectRelay a s).
Proof.
  intros Hinv. unfold DisconnectRelay.
  destruct (JsMap.get a (Sockets s)); [|exact Hinv].
  destruct Hinv as [H1 H2 H3 H4]. constructor; cbn; auto.
  - now apply wf_delete.
  - intros k c' Hin. apply In_delete in Hin. auto.
Qed.

Lemma query_of_request_fields (rb : RequestBuilder) (store : StoreRef) :
  id (query_of_request rb store) = rb_id rb /\
  feed (query_of_request rb store) = store.
Proof.
  unfold query_of_request.
  destruct (request_relays rb), (request_leaveOpen rb); split; reflexivity.
Qed.

Lemma invariant_AddQuery type rb s :
  invariant s -> invariant (snd (AddQuery type rb s)).
Proof.
  intros Hinv. unfold AddQuery. cbn [new_store snd].
  destruct (query_of_request_fields rb (List.length (stores s))) as [Hid Hf].
  apply invariant_changed.
  apply (invariant_frame
           (with_Queries
              (JsMap.set (rb_id rb) (query_of_request rb (List.length (stores s)))
                 (Queries s))
              (snd (new_store type s)))); try reflexivity.
  apply (invariant_set_query (rb_id rb) _ (snd (new_store type s))); auto.
  - now apply invariant_new_store.
  - cbn. rewrite length_app, Hf. cbn. lia.
Qed.

Lemma invariant_Query type req s :
  invariant s -> invariant (snd (NostrSystem_Query type req s)).
Proof.
  intros Hinv. destruct req as [req|]; [|now apply invariant_new_store].
  destruct (JsMap.get (rb_id req) (Queries s)) as [q|] eqn:Hq.
  - destruct (inv_queries_ok s Hinv _ _ (get_In _ _ _ Hq)) as [Hid Hf].
    destruct (Query_registered type req q s Hq) as [[D K]|Hc].
    + rewrite (Query_unchanged type req q s Hq D K). cbn [snd].
      apply invariant_changed. now apply invariant_set_query.
    + rewrite (Query_changed type req q s Hq Hc). cbn [snd].
      apply invariant_changed.
      eapply invariant_frame;
        [| | |apply (invariant_set_query (rb_id req)
                       {| id := id q; filters := rb_build req;
                          subQueries := subQueries q ++ [continuation q req];
                          leaveOpen := leaveOpen q; relays := relays q;
                          closingAt := None; feed := feed q |} s Hinv Hid Hf)];
        try reflexivity.
      cbn. apply length_update_nth.
  - unfold NostrSystem_Query. rewrite Hq. now apply invariant_AddQuery.
Qed.

Lemma invariant_CancelQuery now sub s :
  invariant s -> invariant (CancelQuery now sub s).
Proof.
  intros Hinv. unfold CancelQuery.
  destruct (JsMap.get sub (Queries s)) as [q|] eqn:Hq; [|exact Hinv].
  destruct (inv_queries_ok s Hinv _ _ (get_In _ _ _ Hq)) as [Hid Hf].
  apply invariant_set_query; auto; unfold cancel; destruct (leaveOpen q); auto.
Qed.

Lemma invariant_cleanup now s : invariant s -> invariant (cleanup now s).
Proof.
  intros Hinv. pose proof Hinv as [H1 H2 H3 H4].
  destruct (cleanup_spec now s H2) as (HQ & _ & _ & HS & Hst).
  constructor; rewrite ?HQ, ?HS, ?Hst; auto.
  - unfold JsMap.wf, JsMap.keys in *. clear -H2.
    induction (Queries s) as [|[k v] l IH]; cbn [filter map]; [constructor|].
    cbn [map fst] in H2. inversion H2 as [|? ? Hni Hnd]; subst.
    destruct (survives now (k, v)); cbn [map fst]; auto.
    constructor; auto. intros Hin. apply Hni.
    apply in_map_iff in Hin. destruct Hin as (x & Hx & Hin).
    apply filter_In in Hin. apply in_map_iff. exists x. tauto.
  - intros k q Hin. apply filter_In in Hin. apply H3. tauto.
Qed.

Lemma invariant_OnEvent sub ev s : invariant s -> invariant (OnEvent sub ev s).
Proof.
  intros Hinv. unfold OnEvent. destruct (GetQuery sub s); [|exact Hinv].
  revert Hinv. apply invariant_frame; try reflexivity.
  cbn. apply length_update_nth.
Qed.

Lemma invariant_OnEndOfStoredEvents c sub s :
  invariant s -> invariant (OnEndOfStoredEvents c sub s).
Proof.
  intros Hinv. unfold OnEndOfStoredEvents. destruct (GetQuery sub s); [|exact Hinv].
  revert Hinv. apply invariant_frame; reflexivity.
Qed.

(** Every state that the operations of the class can build from a new
    system is well formed. *)
Theorem reachable_invariant (sanitize : string -> option string) (s : NostrSystem) :
  reachable sanitize s -> invariant s.
Proof.
  induction 1.
  - apply invariant_new.
  - revert IHreachable. apply invariant_frame; reflexivity.
  - revert IHreachable. apply invariant_frame; reflexivity.
  - now apply invariant_ConnectToRelay.
  - now apply invariant_ConnectEphemeralRelay.
  - now apply invariant_DisconnectRelay.
  - now apply invariant_Query.
  - now apply invariant_CancelQuery.
  - now apply invariant_cleanup.
  - now apply invariant_OnEvent.
  - now apply invariant_OnEndOfStoredEvents.
  - revert IHreachable. apply invariant_frame; reflexivity.
  - revert IHreachable. apply invariant_frame; reflexivity.
Qed.

Lemma ex_system_reachable : reachable trailing_slash ex_system.
Proof. unfold ex_system. repeat constructor. Qed.

(* ================================================================== *)
(** * Further properties *)

(** ** Observers: registration and release *)

Lemma findIndex_absent (r : nat) (hs : list HookSystemSnapshot) :
  ~ In r (map cb_ref hs) -> findIndex r hs = None.
Proof.
  induction hs as [|h hs IH]; simpl; auto.
  intros Hni. destruct (cb_ref h =? r)%nat eqn:E.
  - apply Nat.eqb_eq in E. tauto.
  - rewrite IH; tauto.
Qed.

Lemma findIndex_last (cb : HookSystemSnapshot) (hs : list HookSystemSnapshot) :
  ~ In (cb_ref cb) (map cb_ref hs) ->
  findIndex (cb_ref cb) (hs ++ [cb]) = Some (List.length hs).
Proof.
  induction hs as [|h hs IH]; simpl.
  - now rewrite Nat.eqb_refl.
  - intros Hni. destruct (cb_ref h =? cb_ref cb)%nat eqn:E.
    + apply Nat.eqb_eq in E. tauto.
    + rewrite IH; tauto.
Qed.

Lemma remove_at_last {A} (l : list A) (x : A) :
  remove_at (List.length l) (l ++ [x]) = l.
Proof. induction l as [|y l IH]; simpl; [reflexivity | now rewrite IH]. Qed.

(** X1. Registering a callback that is not registered yet and then
    calling the release function that [hook] returned gives back the state
    from before the registration. *)
Theorem hook_release_round_trip (cb : HookSystemSnapshot) (s : NostrSystem) :
  ~ In (cb_ref cb) (map cb_ref (stateHooks s)) ->
  hook_release (cb_ref cb) (hook cb s) = s.
Proof.
  intros Hni. unfold hook_release, hook, with_stateHooks, release. cbn.
  rewrite findIndex_last by assumption. cbn [splice1].
  rewrite remove_at_last. now destruct s.
Qed.

Lemma hook_release_round_trip_witness :
  hook_release 1 (hook hook_self_release ex_system) = ex_system.
Proof.
  apply (hook_release_round_trip hook_self_release ex_system).
  simpl. intros [H|[]]. discriminate H.
Defined.

(** X2. The release function of a callback that is not registered (any
    more) does not leave the list alone: [findIndex] yields [-1] and
    [splice(-1, 1)] removes the last observer.  So releasing twice a
    callback that is registered at most once also unregisters the last of
    the remaining observers. *)
Theorem release_twice_removes_last (r : nat) (s : NostrSystem) :
  (~ In r (map cb_ref (stateHooks s)) ->
   stateHooks (hook_release r s) = removelast (stateHooks s)) /\
  (registrations r (stateHooks s) <= 1 ->
   stateHooks (hook_release r (hook_release r s))
   = removelast (stateHooks (hook_release r s))).
Proof.
  unfold hook_release. cbn. split.
  - intros Hni. unfold release. now rewrite findIndex_absent.
  - intros Hone. unfold release at 1.
    rewrite findIndex_absent; [reflexivity|]. now apply release_removes_once.
Qed.

Lemma release_twice_removes_last_witness :
  stateHooks (hook_release 1 (hook_release 1
                (hook hook_passive (hook hook_self_release new_NostrSystem)))) = [].
Proof.
  destruct (release_twice_removes_last 1
              (hook hook_passive (hook hook_self_release new_NostrSystem)))
    as [_ H].
  rewrite H; [reflexivity|]. vm_compute. lia.
Defined.

(** A callback registered twice needs two calls of its release function;
    the last observer is left alone then. *)
Example release_twice_double_registration :
  release 1 (release 1 [hook_self_release; hook_self_release; hook_passive])
  = [hook_passive].
Proof. reflexivity. Qed.

(** ** Observers: what a round never does *)

Lemma registrations_cons (r : nat) (h : HookSystemSnapshot)
  (hs : list HookSystemSnapshot) :
  registrations r (h :: hs)
  = (if Nat.eq_dec (cb_ref h) r then 1 else 0) + registrations r hs.
Proof.
  unfold registrations. cbn [map].
  destruct (Nat.eq_dec (cb_ref h) r) as [E|E].
  - now rewrite (count_occ_cons_eq Nat.eq_dec _ E).
  - now rewrite (count_occ_cons_neq Nat.eq_dec _ E).
Qed.

(** From index [i] on, no callback is called more often than it is
    registered at or after [i]. *)
Lemma notify_loop_count (r fuel i : nat) (hs : list HookSystemSnapshot) :
  count_occ Nat.eq_dec (snd (notify_loop fuel i hs)) r
  <= registrations r (skipn i hs).
Proof.
  revert i hs. induction fuel as [|fuel IH]; intros i hs; cbn [notify_loop].
  - cbn. lia.
  - destruct (nth_error hs i) as [h|] eqn:Hn; [|cbn; lia].
    specialize (IH (S i) (run_callback h hs)).
    pose proof (registrations_skipn_run_callback (S i) r h hs) as Hle.
    destruct (notify_loop fuel (S i) (run_callback h hs)) as [hs' called].
    cbn [snd] in *.
    rewrite (skipn_nth_error _ _ _ Hn), registrations_cons.
    destruct (Nat.eq_dec (cb_ref h) r) as [E|E].
    + rewrite (count_occ_cons_eq Nat.eq_dec _ E). lia.
    + rewrite (count_occ_cons_neq Nat.eq_dec _ E). lia.
Qed.

Lemma notify_loop_length (fuel i : nat) (hs : list HookSystemSnapshot) :
  List.length (snd (notify_loop fuel i hs)) <= fuel.
Proof.
  revert i hs. induction fuel as [|fuel IH]; intros i hs; cbn [notify_loop].
  - cbn. lia.
  - destruct (nth_error hs i) as [h|]; [|cbn; lia].
    specialize (IH (S i) (run_callback h hs)).
    destruct (notify_loop fuel (S i) (run_callback h hs)) as [hs' called].
    cbn in *. lia.
Qed.

Lemma notify_loop_final_incl (fuel i : nat) (hs : list HookSystemSnapshot) :
  incl (fst (notify_loop fuel i hs)) hs.
Proof.
  revert i hs. induction fuel as [|fuel IH]; intros i hs; cbn [notify_loop];
    [apply incl_refl|].
  destruct (nth_error hs i) as [h|]; [|apply incl_refl].
  specialize (IH (S i) (run_callback h hs)).
  destruct (notify_loop fuel (S i) (run_callback h hs)) as [hs' called].
  cbn in *. intros x Hx. eapply run_callback_incl. now apply IH.
Qed.

(** X3. Whatever the callbacks release during a round and however often
    a callback is registered, no callback is called more often in the round
    than it is registered when the round starts: one that is registered
    once is called at most once, one that is not registered is not called.
    The round calls at most as many callbacks as there are observers, and
    it registers nobody: the observer list it leaves is part of the one it
    found. *)
Theorem notify_round_no_double_delivery (hs : list HookSystemSnapshot) :
  (forall r, count_occ Nat.eq_dec (snd (notify_round hs)) r <= registrations r hs) /\
  incl (snd (notify_round hs)) (map cb_ref hs) /\
  List.length (snd (notify_round hs)) <= List.length hs /\
  incl (fst (notify_round hs)) hs.
Proof.
  unfold notify_round.
  assert (H : forall r, count_occ Nat.eq_dec (snd (notify_loop (List.length hs) 0 hs)) r
                        <= registrations r hs)
    by (intros r; apply (notify_loop_count r (List.length hs) 0 hs)).
  split; [exact H|]. split; [|split].
  - intros r Hin. apply (count_occ_In Nat.eq_dec) in Hin.
    apply (count_occ_In Nat.eq_dec). specialize (H r).
    unfold registrations in H. lia.
  - apply notify_loop_length.
  - apply notify_loop_final_incl.
Qed.

Example round_calls_double_registration_twice :
  snd (notify_round [hook_passive; hook_passive]) = [2; 2].
Proof. reflexivity. Qed.

(** ** Sub-query ids are numbered and never reused *)

Lemma string_app_assoc (a b c : string) :
  ((a ++ b) ++ c)%string = (a ++ (b ++ c))%string.
Proof. induction a as [|x a IH]; simpl; [reflexivity | now rewrite IH]. Qed.

Lemma string_app_nil_r (a : string) : (a ++ "")%string = a.
Proof. induction a as [|x a IH]; simpl; [reflexivity | now rewrite IH]. Qed.

Lemma string_app_inv_head (a x y : string) :
  (a ++ x)%string = (a ++ y)%string -> x = y.
Proof. induction a as [|c a IH]; simpl; [auto | intros [= H]; auto]. Qed.

Lemma string_length_app (a b : string) :
  String.length (a ++ b) = String.length a + String.length b.
Proof. induction a as [|x a IH]; simpl; [reflexivity | now rewrite IH]. Qed.

Lemma decimal_value_app (d r : string) (a : nat) :
  decimal_value (d ++ r) a = decimal_value r (decimal_value d a).
Proof. revert a. induction d as [|c d IH]; intros a; simpl; auto. Qed.

Lemma digit_char_value (k : nat) : k < 10 -> nat_of_ascii (digit_char k) - 48 = k.
Proof.
  intros H. unfold digit_char. rewrite nat_ascii_embedding by lia. lia.
Qed.

(** The numeral printed for [n] denotes [n]. *)
Lemma digits_loop_value (fuel n : nat) (acc : string) :
  n < fuel ->
  exists d, digits_loop fuel n acc = (d ++ acc)%string /\ decimal_value d 0 = n.
Proof.
  revert n acc. induction fuel as [|fuel IH]; intros n acc Hlt; [lia|].
  cbn [digits_loop].
  assert (Hmod : n mod 10 < 10) by (apply Nat.mod_upper_bound; lia).
  pose proof (Nat.div_mod_eq n 10) as Hdm.
  destruct (n / 10 =? 0)%nat eqn:E.
  - apply Nat.eqb_eq in E.
    exists (String (digit_char (n mod 10)) EmptyString). split; [reflexivity|].
    cbn [decimal_value]. rewrite digit_char_value by assumption. lia.
  - apply Nat.eqb_neq in E.
    destruct (IH (n / 10) (String (digit_char (n mod 10)) acc)) as (d & Hd & Hv).
    { assert (n / 10 < n) by (apply Nat.div_lt; lia). lia. }
    exists (d ++ String (digit_char (n mod 10)) EmptyString)%string. split.
    + rewrite Hd. now rewrite string_app_assoc.
    + rewrite decimal_value_app, Hv. cbn [decimal_value].
      rewrite digit_char_value by assumption. lia.
Qed.

Lemma Number_toString_value (n : nat) : decimal_value (Number_toString n) 0 = n.
Proof.
  unfold Number_toString.
  destruct (digits_loop_value (S n) n EmptyString) as (d & Hd & Hv); [lia|].
  now rewrite Hd, string_app_nil_r.
Qed.

Lemma Number_toString_inj (n m : nat) :
  Number_toString n = Number_toString m -> n = m.
Proof.
  intros H. rewrite <- (Number_toString_value n), <- (Number_toString_value m).
  now rewrite H.
Qed.

Lemma registry_numbered_frame (s s' : NostrSystem) :
  Queries s' = Queries s -> registry_numbered s -> registry_numbered s'.
Proof. unfold registry_numbered. now intros ->. Qed.

Lemma registry_numbered_set (k : string) (q : Query) (s : NostrSystem) :
  registry_numbered s -> subqueries_numbered q ->
  registry_numbered (with_Queries (JsMap.set k q (Queries s)) s).
Proof.
  intros Hs Hq k' q' Hin. cbn in Hin. apply In_set in Hin.
  destruct Hin as [[_ ->]|Hin]; eauto.
Qed.

Lemma subqueries_numbered_continuation (q : Query) (req : RequestBuilder) :
  subqueries_numbered q ->
  subqueries_numbered
    {| id := id q; filters := rb_build req;
       subQueries := subQueries q ++ [continuation q req];
       leaveOpen := leaveOpen q; relays := relays q;
       closingAt := None; feed := feed q |}.
Proof.
  intros Hq i sq. cbn [subQueries id feed].
  destruct (Nat.lt_ge_cases i (List.length (subQueries q))) as [Hlt|Hge].
  - rewrite nth_error_app1 by assumption. apply Hq.
  - rewrite nth_error_app2 by assumption.
    destruct (i - List.length (subQueries q)) as [|j] eqn:E.
    + cbn. intros [= <-]. unfold continuation, new_Query. cbn.
      replace i with (List.length (subQueries q)) by lia. auto.
    + cbn. destruct j; discriminate.
Qed.

Lemma registry_numbered_Query (type : NoteStore) (req : option RequestBuilder)
  (s : NostrSystem) :
  registry_numbered s -> registry_numbered (snd (NostrSystem_Query type req s)).
Proof.
  intros Hs. destruct req as [req|]; [|exact Hs].
  destruct (JsMap.get (rb_id req) (Queries s)) as [q|] eqn:Hq.
  - assert (Hnq : subqueries_numbered q) by (eapply Hs, get_In; eauto).
    destruct (Query_registered type req q s Hq) as [[D K]|Hc].
    + rewrite (Query_unchanged type req q s Hq D K). cbn [snd].
      apply (registry_numbered_frame
               (with_Queries (JsMap.set (rb_id req) (unCancel q) (Queries s)) s)).
      * now destruct (changed_spec
                        (with_Queries (JsMap.set (rb_id req) (unCancel q) (Queries s)) s))
          as (_ & HQ & _).
      * apply registry_numbered_set; auto.
    + rewrite (Query_changed type req q s Hq Hc). cbn [snd].
      set (q' := {| id := id q; filters := rb_build req;
                    subQueries := subQueries q ++ [continuation q req];
                    leaveOpen := leaveOpen q; relays := relays q;
                    closingAt := None; feed := feed q |}).
      apply (registry_numbered_frame
               (with_Queries (JsMap.set (rb_id req) q' (Queries s)) s)).
      * match goal with
        | |- Queries (changed ?s1) = _ =>
            now destruct (changed_spec s1) as (_ & HQ & _)
        end.
      * apply registry_numbered_set; auto.
        now apply subqueries_numbered_continuation.
  - unfold NostrSystem_Query. rewrite Hq. unfold AddQuery. cbn [new_store snd].
    set (q := query_of_request req (List.length (stores s))).
    apply (registry_numbered_frame (with_Queries (JsMap.set (rb_id req) q (Queries s)) s)).
    + match goal with
      | |- Queries (changed ?s1) = _ =>
          now destruct (changed_spec s1) as (_ & HQ & _)
      end.
    + apply registry_numbered_set; auto.
      intros i sq. subst q. unfold query_of_request.
      destruct (request_relays req), (request_leaveOpen req); cbn;
        destruct i; discriminate.
Qed.

(** The numbering of continuations is kept by every operation. *)
Lemma reachable_numbered
  (sanitize : string -> option string) (s : NostrSystem) :
  reachable sanitize s -> registry_numbered s.
Proof.
  induction 1 as [|cb s H IH|cb s H IH|ok a o s H IH|ok a s H IH|a s H IH
                 |type req s H IH|now sub s H IH|now s H IH|sub ev s H IH
                 |c sub s H IH|c s H IH|ev s H IH].
  - intros k q [].
  - exact IH.
  - exact IH.
  - revert IH. apply registry_numbered_frame.
    unfold ConnectToRelay. destruct (sanitize a); [|reflexivity].
    destruct (negb _); [now destruct ok|]. now destruct (JsMap.get _ _).
  - revert IH. apply registry_numbered_frame.
    unfold ConnectEphemeralRelay. destruct (sanitize a); [|reflexivity].
    destruct (negb _); [now destruct ok | reflexivity].
  - revert IH. apply registry_numbered_frame.
    unfold DisconnectRelay. now destruct (JsMap.get _ _).
  - now apply registry_numbered_Query.
  - unfold CancelQuery. destruct (JsMap.get sub (Queries s)) as [q|] eqn:Hq; [|exact IH].
    apply registry_numbered_set; auto.
    assert (Hnq : subqueries_numbered q) by (eapply IH, get_In; eauto).
    unfold cancel. now destruct (leaveOpen q).
  - pose proof (reachable_invariant _ _ H) as Hinv.
    destruct (cleanup_spec now s (inv_queries_wf s Hinv)) as (HQ & _).
    intros k q Hin. rewrite HQ in Hin. apply filter_In in Hin.
    apply (IH k q). tauto.
  - revert IH. apply registry_numbered_frame.
    unfold OnEvent. now destruct (GetQuery sub s).
  - revert IH. apply registry_numbered_frame.
    unfold OnEndOfStoredEvents. now destruct (GetQuery sub s).
  - exact IH.
  - exact IH.
Qed.

(** X4. In every state that the operations of the class can build, the
    continuations of a registered query are numbered 1, 2, 3, ... in the
    order of their creation ([id-1], [id-2], ...), every one of them shares
    the store of its parent, and none has continuations of its own. *)
Theorem reachable_subqueries_numbered
  (sanitize : string -> option string) (s : NostrSystem) :
  reachable sanitize s ->
  forall k q, JsMap.get k (Queries s) = Some q ->
  forall i sq,
    nth_error (subQueries q) i = Some sq ->
    id sq = (k ++ "-" ++ Number_toString (i + 1))%string /\
    feed sq = feed q /\
    subQueries sq = [].
Proof.
  intros Hr k q Hq i sq Hi.
  pose proof (get_In _ _ _ Hq) as Hin.
  destruct (inv_queries_ok s (reachable_invariant sanitize s Hr) k q Hin) as [<- _].
  exact (reachable_numbered sanitize s Hr (id q) q Hin i sq Hi).
Qed.

Lemma reachable_subqueries_numbered_witness :
  id (new_Query "abc-1" [ex_filter_notes; ex_filter_profiles] 0)
  = ("abc" ++ "-" ++ Number_toString (0 + 1))%string /\
  feed (new_Query "abc-1" [ex_filter_notes; ex_filter_profiles] 0) = 0 /\
  subQueries (new_Query "abc-1" [ex_filter_notes; ex_filter_profiles] 0) = [].
Proof.
  apply (reachable_subqueries_numbered trailing_slash
           (snd (NostrSystem_Query ex_store (Some ex_request_changed) ex_system))
           (reach_query trailing_slash ex_store (Some ex_request_changed) ex_system
              ex_system_reachable)
           "abc"
           {| id := "abc"; filters := [ex_filter_notes; ex_filter_profiles];
              subQueries := [new_Query "abc-1" [ex_filter_notes; ex_filter_profiles] 0];
              leaveOpen := false; relays := []; closingAt := None; feed := 0 |}
           eq_refl 0 (new_Query "abc-1" [ex_filter_notes; ex_filter_profiles] 0)
           eq_refl).
Defined.

(** X5. In every reachable state the ids of the continuations of a
    registered query are pairwise different, and different from the id of
    the query: a continuation id is never used twice. *)
Theorem reachable_subquery_ids_distinct
  (sanitize : string -> option string) (s : NostrSystem) (k : string) (q : Query) :
  reachable sanitize s ->
  JsMap.get k (Queries s) = Some q ->
  NoDup (map id (subQueries q)) /\
  forall sq, In sq (subQueries q) -> id sq <> id q.
Proof.
  intros Hr Hq.
  assert (Hn : subqueries_numbered q).
  { eapply (reachable_numbered sanitize s Hr), get_In; eauto. }
  split.
  - apply NoDup_nth_error. intros i j Hi E.
    rewrite length_map in Hi.
    rewrite !nth_error_map in E.
    destruct (nth_error (subQueries q) i) as [sq|] eqn:Ei.
    2:{ apply nth_error_None in Ei. lia. }
    destruct (nth_error (subQueries q) j) as [sq'|] eqn:Ej; [|discriminate].
    cbn in E. injection E as E.
    destruct (Hn i sq Ei) as [Hi' _]. destruct (Hn j sq' Ej) as [Hj' _].
    rewrite Hi', Hj' in E.
    apply string_app_inv_head, string_app_inv_head, Number_toString_inj in E. lia.
  - intros sq Hin. apply In_nth_error in Hin. destruct Hin as [i Hi].
    destruct (Hn i sq Hi) as [-> _]. intros E.
    apply (f_equal String.length) in E.
    rewrite string_length_app in E. cbn in E. lia.
Qed.

Lemma reachable_subquery_ids_distinct_witness :
  exists q,
    JsMap.get "abc"
      (Queries (snd (NostrSystem_Query ex_store (Some ex_request_changed) ex_system)))
    = Some q /\ NoDup (map id (subQueries q)).
Proof.
  eexists. split; [reflexivity|].
  eapply (reachable_subquery_ids_distinct trailing_slash
            (snd (NostrSystem_Query ex_store (Some ex_request_changed) ex_system)) "abc").
  - apply reach_query. unfold ex_system. repeat constructor.
  - reflexivity.
Defined.

(** ** The registry: first submission and store identity *)

Lemma query_of_request_fresh (rb : RequestBuilder) (store : StoreRef) :
  id (query_of_request rb store) = rb_id rb /\
  filters (query_of_request rb store) = rb_build rb /\
  subQueries (query_of_request rb store) = [] /\
  closingAt (query_of_request rb store) = None /\
  feed (query_of_request rb store) = store.
Proof.
  unfold query_of_request.
  destruct (request_relays rb), (request_leaveOpen rb); repeat split.
Qed.

(** X6. The first submit call for an id that is not registered allocates
    a new store at the end of the heap and returns it, registers one open
    query without continuations under that id behind the queries already
    there, sends its filters to every connection of the pool and publishes;
    the stores and queries that existed are left as they were, and in a
    well-formed state the returned store is not the store of any other
    query. *)
Theorem first_submit_registers
  (type : NoteStore) (req : RequestBuilder) (s : NostrSystem) :
  invariant s ->
  JsMap.get (rb_id req) (Queries s) = None ->
  let r := fst (NostrSystem_Query type (Some req) s) in
  let s' := snd (NostrSystem_Query type (Some req) s) in
  r = List.length (stores s) /\
  stores s' = stores s ++ [type] /\
  (exists q,
      Queries s' = Queries s ++ [(rb_id req, q)] /\
      id q = rb_id req /\ filters q = rb_build req /\
      subQueries q = [] /\ closingAt q = None /\ feed q = r) /\
  (forall k q0, In (k, q0) (Queries s) -> feed q0 <> r) /\
  log s'
  = log s
    ++ map (fun c => SendToRelay (rb_id req) (rb_build req) (Address c))
         (JsMap.values (Sockets s))
    ++ Publish (build_snapshot (Queries s'))
         :: map Notify (snd (notify_round (stateHooks s))).
Proof.
  intros Hinv Hq r s'. subst r s'.
  unfold NostrSystem_Query. rewrite Hq. unfold AddQuery. cbn [new_store fst snd].
  destruct (query_of_request_fresh req (List.length (stores s)))
    as (Hid & Hfs & Hsub & Hcl & Hfeed).
  after_changed.
  cbn [SendQuery emit with_Queries Queries stores log Sockets stateHooks].
  unfold sendToRelay. rewrite Hid, Hfs.
  rewrite set_absent by assumption.
  repeat split.
  - eexists. split; [reflexivity|]. auto.
  - intros k q0 Hin. destruct (inv_queries_ok s Hinv k q0 Hin). lia.
  - now rewrite <- app_assoc.
Qed.

Lemma first_submit_registers_witness :
  fst (NostrSystem_Query ex_store
         (Some {| rb_id := "profiles"; rb_build := [ex_filter_profiles];
                  rb_options := None |}) ex_system) = 1.
Proof.
  apply (first_submit_registers ex_store
           {| rb_id := "profiles"; rb_build := [ex_filter_profiles];
              rb_options := None |} ex_system).
  - apply (reachable_invariant trailing_slash). unfold ex_system. repeat constructor.
  - reflexivity.
Defined.








(** After a tick has removed the query, the id gets a new store. *)
Example resubmit_after_sweep_new_store :
  fst (NostrSystem_Query ex_store (Some ex_request)
         (cleanup 7000 (CancelQuery 1000 "abc" ex_system))) = 1.
Proof. reflexivity. Qed.

(** ** Routing of inbound subscription ids *)

Lemma subFilterId_match_inv (sub : string) :
  subFilterId_match sub = true ->
  exists parent ds,
    sub = (parent ++ "-" ++ ds)%string /\ ds <> EmptyString /\ all_digits ds = true.
Proof.
  induction sub as [|c r IH]; [discriminate|].
  unfold subFilterId_match; fold subFilterId_match.
  destruct (subFilterId_at (String c r)) eqn:E.
  - intros _. unfold subFilterId_at in E.
    apply andb_true_iff in E. destruct E as [E Hd].
    apply andb_true_iff in E. destruct E as [Hc Hne].
    apply Ascii.eqb_eq in Hc. subst c.
    exists EmptyString, r. repeat split; auto.
    intros ->. discriminate.
  - cbn [orb]. intros H. destruct (IH H) as (p & ds & -> & Hne & Hd).
    exists (String c p), ds. auto.
Qed.

(** X8. An inbound id that does not end in a dash followed by digits is
    looked up as it is. *)
Theorem GetQuery_verbatim (sub : string) (s : NostrSystem) :
  (forall parent ds,
      ds <> EmptyString -> all_digits ds = true ->
      sub <> (parent ++ "-" ++ ds)%string) ->
  GetQuery sub s = JsMap.get sub (Queries s).
Proof.
  intros Hno. unfold GetQuery.
  destruct (subFilterId_match sub) eqn:E; [|reflexivity].
  destruct (subFilterId_match_inv sub E) as (p & ds & -> & Hne & Hd).
  exfalso. now apply (Hno p ds).
Qed.

Lemma all_digits_dash_free (s : string) :
  all_digits s = true -> forall x y, s <> (x ++ String "-" y)%string.
Proof.
  intros Hd x y ->. now rewrite all_digits_dash in Hd.
Qed.

Lemma GetQuery_verbatim_witness : GetQuery "abc" ex_system = Some ex_query.
Proof.
  rewrite (GetQuery_verbatim "abc" ex_system); [reflexivity|].
  intros parent ds Hne Hd E.
  assert (Hm : subFilterId_match "abc" = true)
    by (rewrite E; now apply subFilterId_match_suffix).
  discriminate Hm.
Defined.

(** X9. A query registered under an id that itself ends in a dash
    followed by digits cannot be reached under that id: inbound events and
    end-of-stored-events signals for it are looked up under the id without
    the suffix, and are dropped when nothing is registered there. *)
Theorem suffixed_top_level_id_is_unreachable
  (s : NostrSystem) (parent ds : string) (q : Query) (ev : TaggedRawEvent)
  (c : Connection) :
  ds <> EmptyString -> all_digits ds = true ->
  JsMap.get (parent ++ "-" ++ ds)%string (Queries s) = Some q ->
  JsMap.get parent (Queries s) = None ->
  GetQuery (parent ++ "-" ++ ds)%string s = None /\
  OnEvent (parent ++ "-" ++ ds)%string ev s = s /\
  OnEndOfStoredEvents c (parent ++ "-" ++ ds)%string s = s.
Proof.
  intros Hne Hd _ Hp.
  assert (HG : GetQuery (parent ++ "-" ++ ds)%string s = None)
    by now rewrite GetQuery_suffix.
  unfold OnEvent, OnEndOfStoredEvents. rewrite HG. auto.
Qed.

Lemma suffixed_top_level_id_is_unreachable_witness :
  let s := snd (NostrSystem_Query ex_store
                  (Some {| rb_id := "note-1"; rb_build := [ex_filter_notes];
                           rb_options := None |}) new_NostrSystem) in
  JsMap.has "note-1" (Queries s) = true /\ OnEvent "note-1" ex_event s = s.
Proof.
  cbv zeta. split; [reflexivity|].
  destruct (suffixed_top_level_id_is_unreachable
              (snd (NostrSystem_Query ex_store
                      (Some {| rb_id := "note-1"; rb_build := [ex_filter_notes];
                               rb_options := None |}) new_NostrSystem))
              "note" "1" (new_Query "note-1" [ex_filter_notes] 0) ex_event
              {| Address := "wss://relay.example/"; Settings := ex_settings;
                 Ephemeral := false |})
    as (_ & H & _).
  - discriminate.
  - reflexivity.
  - reflexivity.
  - reflexivity.
  - exact H.
Defined.

(** X10. The id that a changed resubmission gives to its continuation is
    one that the router sends back to the parent: in a well-formed state,
    an event arriving under the new continuation id is added to the store
    that the parent query feeds (whose loading flag the resubmission has
    set). *)
Theorem continuation_events_reach_parent_store
  (type : NoteStore) (req : RequestBuilder) (q : Query) (st : NoteStore)
  (ev : TaggedRawEvent) (s : NostrSystem) :
  invariant s ->
  JsMap.get (rb_id req) (Queries s) = Some q ->
  rb_build req <> filters q \/ skipDiff req = true ->
  nth_error (stores s) (feed q) = Some st ->
  let s' := snd (NostrSystem_Query type (Some req) s) in
  nth_error (stores (OnEvent (id (continuation q req)) ev s')) (feed q)
  = Some {| loading := true; added := added st ++ [ev] |}.
Proof.
  intros Hinv Hq Hc Hst s'.
  destruct (inv_queries_ok s Hinv _ _ (get_In _ _ _ Hq)) as [Hid _].
  unfold OnEvent. rewrite continuation_routes_to_parent.
  subst s'. rewrite (Query_changed type req q s Hq Hc). cbn [snd].
  set (s1 := SendQuery _ _).
  destruct (changed_spec s1) as (_ & HQ & Hstores & _).
  remember (changed s1) as s2 eqn:E2. clear E2.
  assert (Hq' : exists q', JsMap.get (id q) (Queries s2) = Some q' /\ feed q' = feed q).
  { rewrite HQ. cbn. rewrite Hid. eexists. split; [apply get_set_eq|reflexivity]. }
  destruct Hq' as (q' & -> & ->).
  cbn [store_add with_stores stores]. rewrite Hstores. subst s1.
  cbn [SendQuery emit set_loading with_stores with_Queries stores].
  pose proof (nth_error_update_nth
                (fun st0 => {| loading := true; added := added st0 |})
                (stores s) (feed q) st Hst) as Hin.
  now rewrite (nth_error_update_nth _ _ _ _ Hin).
Qed.

Lemma continuation_events_reach_parent_store_witness :
  nth_error
    (stores (OnEvent "abc-1" ex_event
               (snd (NostrSystem_Query ex_store (Some ex_request_changed) ex_system)))) 0
  = Some {| loading := true; added := [ex_event] |}.
Proof.
  apply (continuation_events_reach_parent_store ex_store ex_request_changed ex_query
           ex_store ex_event ex_system).
  - apply (reachable_invariant trailing_slash). unfold ex_system. repeat constructor.
  - reflexivity.
  - left. discriminate.
  - reflexivity.
Defined.

(** ** The clean-up loop: ticks compose *)

Lemma cleanup_fold_idle (now : Z) (l : list (string * Query)) :
  forall (s : NostrSystem) (ch : bool),
    (forall kv, In kv l -> is_past_due now kv = false) ->
    fold_left (cleanup_step now) l (s, ch) = (s, ch).
Proof.
  induction l as [|[k v] l IH]; intros s ch Hall; cbn [fold_left]; auto.
  rewrite cleanup_step_eq.
  assert (E : past_due now v = false) by (apply (Hall (k, v)); now left).
  rewrite E. apply IH. intros kv H. apply Hall. now right.
Qed.

Lemma past_due_mono (now now' : Z) (q : Query) :
  (now' <= now)%Z -> past_due now' q = true -> past_due now q = true.
Proof.
  intros Hle H. apply past_due_iff in H. destruct H as (t & Ht & H0 & Hlt).
  apply past_due_iff. exists t. repeat split; auto. lia.
Qed.

(** X11. A tick that follows a tick, with a clock that has not passed the
    first tick's reading, finds nothing to remove: it leaves the whole
    state as it is, sends no close frame and publishes nothing. *)
Theorem tick_after_tick_is_silent (now now' : Z) (s : NostrSystem) :
  JsMap.wf (Queries s) ->
  (now' <= now)%Z ->
  cleanup now' (cleanup now s) = cleanup now s.
Proof.
  intros Hwf Hle.
  destruct (cleanup_spec now s Hwf) as (HQ & _).
  unfold cleanup at 1. rewrite cleanup_fold_idle; [reflexivity|].
  intros kv Hin. rewrite HQ in Hin. apply filter_In in Hin.
  destruct Hin as [_ Hs]. unfold survives in Hs. unfold is_past_due.
  destruct (past_due now' (snd kv)) eqn:E; [|reflexivity].
  apply (past_due_mono now) in E; [|assumption].
  rewrite E in Hs. discriminate.
Qed.

Lemma tick_after_tick_is_silent_witness :
  cleanup 7000 (cleanup 7000 (CancelQuery 1000 "abc" ex_system))
  = cleanup 7000 (CancelQuery 1000 "abc" ex_system).
Proof.
  apply tick_after_tick_is_silent.
  - unfold JsMap.wf. cbn. repeat constructor. simpl. tauto.
  - discriminate.
Defined.

(** ** The pool: what a removed connection no longer receives *)

Lemma In_delete_key {V} (a k : string) (v : V) (m : JsMap.t V) :
  JsMap.wf m -> In (k, v) (JsMap.delete a m) -> k <> a.
Proof.
  intros Hwf Hin ->.
  pose proof (In_get a v _ (wf_delete a m Hwf) Hin) as H.
  rewrite get_delete_eq in H by assumption. discriminate.
Qed.

Lemma values_not_addressed (a : string) (f : Connection -> Effect) (m : JsMap.t Connection) :
  (forall k c, In (k, c) m -> addressed_to a (f c) = false) ->
  filter (addressed_to a) (map f (JsMap.values m)) = [].
Proof.
  unfold JsMap.values. induction m as [|[k c] m IH]; intros H; cbn; auto.
  rewrite (H k c) by now left. apply IH. intros k' c' Hin. apply (H k' c'). now right.
Qed.

(** X12. After [DisconnectRelay] for the address under which a connection
    is stored, the connection is closed once and nothing is addressed to it
    any more: neither a query that is sent to the pool nor a broadcast
    event reaches it. *)
Theorem disconnected_relay_receives_nothing
  (a : string) (c : Connection) (q : Query) (ev : TaggedRawEvent) (s : NostrSystem) :
  invariant s ->
  JsMap.get a (Sockets s) = Some c ->
  let s1 := DisconnectRelay a s in
  log s1 = log s ++ [Close a] /\
  (exists es, log (SendQuery q s1) = log s1 ++ es /\ filter (addressed_to a) es = []) /\
  (exists es, log (BroadcastEvent ev s1) = log s1 ++ es /\
              filter (addressed_to a) es = []).
Proof.
  intros Hinv Hg s1.
  pose proof (inv_sockets_wf s Hinv) as Hwf.
  assert (Ha : Address c = a) by (apply (inv_sockets_ok s Hinv), get_In, Hg).
  assert (HS : Sockets s1 = JsMap.delete a (Sockets s)).
  { subst s1. unfold DisconnectRelay. now rewrite Hg. }
  assert (Hother : forall k c', In (k, c') (Sockets s1) -> Address c' <> a).
  { intros k c' Hin. rewrite HS in Hin.
    pose proof (In_delete_key a k c' _ Hwf Hin) as Hk.
    apply In_delete in Hin. now rewrite (inv_sockets_ok s Hinv k c' Hin). }
  split; [|split].
  - subst s1. unfold DisconnectRelay. rewrite Hg. cbn. now rewrite Ha.
  - eexists. split; [reflexivity|]. apply values_not_addressed.
    intros k c' Hin. cbn. apply String.eqb_neq. eauto.
  - eexists. split; [reflexivity|]. apply values_not_addressed.
    intros k c' Hin. cbn. apply String.eqb_neq. eauto.
Qed.

Lemma disconnected_relay_receives_nothing_witness :
  log (BroadcastEvent ex_event (DisconnectRelay "wss://relay.example/" ex_system))
  = log ex_system ++ [Close "wss://relay.example/"].
Proof.
  destruct (disconnected_relay_receives_nothing "wss://relay.example/"
              {| Address := "wss://relay.example/"; Settings := ex_settings;
                 Ephemeral := false |} ex_query ex_event ex_system)
    as (H1 & _ & _).
  - apply (reachable_invariant trailing_slash). unfold ex_system. repeat constructor.
  - reflexivity.
  - cbv zeta in H1. cbn [BroadcastEvent]. reflexivity.
Defined.

(** ** The pool: ephemeral connections *)

(** X13. When [ConnectEphemeralRelay] returns a connection, the address
    was normalised, no connection was stored under the normal form, and
    the connect succeeded; the connection returned is read-only and
    ephemeral and is the one now stored under the normal form. *)
Theorem ConnectEphemeralRelay_returns
  (sanitize : string -> option string) (ok : bool) (a : string)
  (c : Connection) (s : NostrSystem) :
  fst (ConnectEphemeralRelay sanitize ok a s) = Some c ->
  sanitize a = Some (Address c) /\
  ok = true /\
  JsMap.get (Address c) (Sockets s) = None /\
  Settings c = {| read := true; write := false |} /\
  Ephemeral c = true /\
  JsMap.get (Address c) (Sockets (snd (ConnectEphemeralRelay sanitize ok a s))) = Some c.
Proof.
  unfold ConnectEphemeralRelay, JsMap.has.
  destruct (sanitize a) as [addr|]; [|discriminate].
  destruct (JsMap.get addr (Sockets s)) eqn:E; cbn [negb]; [discriminate|].
  destruct ok; [|discriminate]. cbn. intros [= <-]. cbn.
  repeat split; auto. apply get_set_eq.
Qed.

Lemma ConnectEphemeralRelay_returns_witness :
  JsMap.get "wss://other.example/"
    (Sockets (snd (ConnectEphemeralRelay trailing_slash true "wss://other.example"
                     ex_system)))
  = Some {| Address := "wss://other.example/";
            Settings := {| read := true; write := false |}; Ephemeral := true |}.
Proof.
  apply (ConnectEphemeralRelay_returns trailing_slash true "wss://other.example"
           {| Address := "wss://other.example/";
              Settings := {| read := true; write := false |}; Ephemeral := true |}
           ex_system).
  reflexivity.
Defined.

(** X14. While a connection is stored under the normal form of an address,
    [ConnectEphemeralRelay] for that address returns nothing, connects
    nothing and leaves the state as it is.  A connection is stored under
    the normal form after every [ConnectEphemeralRelay] and every
    [ConnectToRelay] call for it, also when the connect failed; so an
    ephemeral connect that directly follows any connect call for the same
    normal form yields nothing. *)
Theorem ConnectEphemeralRelay_no_retry
  (sanitize : string -> option string) (ok : bool) (a addr : string)
  (s : NostrSystem) :
  sanitize a = Some addr ->
  (JsMap.has addr (Sockets s) = true ->
   ConnectEphemeralRelay sanitize ok a s = (None, s)) /\
  (forall ok1 a1 o,
      sanitize a1 = Some addr ->
      JsMap.has addr (Sockets (snd (ConnectEphemeralRelay sanitize ok1 a1 s))) = true /\
      JsMap.has addr (Sockets (ConnectToRelay sanitize ok1 a1 o s)) = true /\
      ConnectEphemeralRelay sanitize ok a
        (snd (ConnectEphemeralRelay sanitize ok1 a1 s))
      = (None, snd (ConnectEphemeralRelay sanitize ok1 a1 s)) /\
      ConnectEphemeralRelay sanitize ok a (ConnectToRelay sanitize ok1 a1 o s)
      = (None, ConnectToRelay sanitize ok1 a1 o s)).
Proof.
  intros Ha.
  assert (Hnone : forall s0, JsMap.has addr (Sockets s0) = true ->
                             ConnectEphemeralRelay sanitize ok a s0 = (None, s0)).
  { intros s0 Hh. unfold ConnectEphemeralRelay. now rewrite Ha, Hh. }
  split; [apply Hnone|].
  intros ok1 a1 o H1.
  assert (He : JsMap.has addr (Sockets (snd (ConnectEphemeralRelay sanitize ok1 a1 s)))
               = true).
  { unfold ConnectEphemeralRelay. rewrite H1.
    destruct (JsMap.has addr (Sockets s)) eqn:E; cbn [negb snd]; [exact E|].
    unfold JsMap.has. destruct ok1; cbn; now rewrite get_set_eq. }
  assert (Hc : JsMap.has addr (Sockets (ConnectToRelay sanitize ok1 a1 o s)) = true).
  { unfold ConnectToRelay. rewrite H1. unfold JsMap.has.
    destruct (JsMap.get addr (Sockets s)) eqn:E; cbn [negb].
    - cbn. now rewrite get_set_eq.
    - destruct ok1; cbn; now rewrite get_set_eq. }
  auto.
Qed.

Lemma ConnectEphemeralRelay_no_retry_witness :
  fst (ConnectEphemeralRelay trailing_slash true "wss://other.example/"
         (snd (ConnectEphemeralRelay trailing_slash false "wss://other.example"
                 ex_system))) = None.
Proof.
  destruct (ConnectEphemeralRelay_no_retry trailing_slash true
              "wss://other.example/" "wss://other.example/" ex_system eq_refl)
    as [_ H].
  destruct (H false "wss://other.example" ex_settings eq_refl) as (_ & _ & H3 & _).
  now rewrite H3.
Defined.

(** Once [DisconnectRelay] has removed the entry, an ephemeral connect for
    the address yields a connection again. *)
Example ephemeral_connect_after_disconnect :
  fst (ConnectEphemeralRelay trailing_slash true "wss://other.example"
         (DisconnectRelay "wss://other.example/"
            (snd (ConnectEphemeralRelay trailing_slash true "wss://other.example"
                    ex_system))))
  = Some {| Address := "wss://other.example/";
            Settings := {| read := true; write := false |}; Ephemeral := true |}.
Proof. reflexivity. Qed.

(** ** Replay on connect *)

(** X15. When a connection reports that it is connected, every registered
    query is sent to it once, in registry order, under the id it is
    registered with and with its current filter set; nothing is sent under
    a continuation id of its own, and the state is otherwise untouched. *)
Theorem OnConnected_replays_registry (c : Connection) (s : NostrSystem) :
  invariant s ->
  log (OnConnected c s)
  = log s ++ map (fun kv => SendToRelay (fst kv) (filters (snd kv)) (Address c))
               (Queries s) /\
  Queries (OnConnected c s) = Queries s /\
  Sockets (OnConnected c s) = Sockets s /\
  stores (OnConnected c s) = stores s /\
  snapshot (OnConnected c s) = snapshot s.
Proof.
  intros Hinv. unfold OnConnected. cbn. repeat split.
  f_equal. unfold JsMap.values. rewrite map_map.
  apply map_ext_in. intros [k q] Hin. unfold sendToRelay. cbn.
  now destruct (inv_queries_ok s Hinv k q Hin) as [-> _].
Qed.

Lemma OnConnected_replays_registry_witness :
  log (OnConnected {| Address := "wss://other.example/"; Settings := ex_settings;
                      Ephemeral := false |}
         (snd (NostrSystem_Query ex_store (Some ex_request_changed) ex_system)))
  = log (snd (NostrSystem_Query ex_store (Some ex_request_changed) ex_system))
    ++ [SendToRelay "abc" [ex_filter_notes; ex_filter_profiles] "wss://other.example/"].
Proof.
  destruct (OnConnected_replays_registry
              {| Address := "wss://other.example/"; Settings := ex_settings;
                 Ephemeral := false |}
              (snd (NostrSystem_Query ex_store (Some ex_request_changed) ex_system)))
    as [H _].
  - apply (reachable_invariant trailing_slash).
    apply reach_query. unfold ex_system. repeat constructor.
  - rewrite H. reflexivity.
Defined.

(** ** [WriteOnceToRelay]: order of effects *)

Lemma write_order_settle (address : string) (ev : TaggedRawEvent)
  (p : PromiseState) (t : Z) (w : WriteOnce) :
  write_order address ev w ->
  (p = Fulfilled ->
   In (SendAsync address ev) (w_log w) /\ In (Close address) (w_log w)) ->
  write_order address ev (settle p t w).
Proof.
  intros H Hp. unfold settle. destruct (promise w) eqn:P; [|exact H|exact H].
  unfold write_order in *. cbn. destruct H as (H1 & H2 & H3 & H4 & H5 & H6).
  repeat split; auto; now apply Hp.
Qed.

Lemma write_order_advance (address : string) (ev : TaggedRawEvent) (t : Z)
  (w : WriteOnce) :
  write_order address ev w -> write_order address ev (advance t w).
Proof.
  intros H. unfold advance, fire_timer.
  destruct (timer w) as [d|] eqn:T; [|exact H].
  destruct (d <=? t)%Z; [|exact H].
  apply write_order_settle; [|discriminate].
  unfold write_order in *. cbn. exact H.
Qed.

Lemma sends_app (a b : list Effect) : sends (a ++ b) = sends a + sends b.
Proof. unfold sends. now rewrite filter_app, length_app. Qed.

Lemma closes_app (a b : list Effect) : closes (a ++ b) = closes a + closes b.
Proof. unfold closes. now rewrite filter_app, length_app. Qed.

Lemma write_order_step (address : string) (ev : TaggedRawEvent) (w : WriteOnce)
  (te : Z * WriteEvent) :
  write_order address ev w -> write_order address ev (write_step w te).
Proof.
  destruct te as [t e]. intros Hw. unfold write_step.
  pose proof (write_order_advance address ev t w Hw) as H'.
  destruct (advance t w) as [a' e' tm p st aw lg].
  unfold write_order in H'. cbn in H'.
  destruct H' as (-> & -> & H3 & H4 & H5 & H6).
  destruct e.
  - assert (HS : In (SendAsync address ev) (lg ++ [SendAsync address ev]))
      by (apply in_or_app; right; now left).
    assert (HC : p = Fulfilled -> In (Close address) (lg ++ [SendAsync address ev]))
      by (intros HF; apply in_or_app; left; now apply H4).
    unfold on_connected, write_order. cbn [w_address w_event awaiting promise w_log].
    rewrite sends_app, closes_app.
    change (sends [SendAsync address ev]) with 1.
    change (closes [SendAsync address ev]) with 0.
    repeat split; auto. unfold sends, closes in *. lia.
  - unfold on_sent. cbn [awaiting].
    destruct aw as [|n]; [unfold write_order; cbn; auto 10|].
    assert (HS : In (SendAsync address ev) (lg ++ [Close address]))
      by (apply in_or_app; left; apply H3; discriminate).
    assert (HC : In (Close address) (lg ++ [Close address]))
      by (apply in_or_app; right; now left).
    apply write_order_settle; [|cbn; auto].
    unfold write_order. cbn [w_address w_event awaiting promise w_log].
    rewrite sends_app, closes_app.
    change (sends [Close address]) with 0.
    change (closes [Close address]) with 1.
    repeat split; auto.
    unfold sends, closes in *. lia.
Qed.

(** X16. In every run of [WriteOnceToRelay], whatever the environment
    does and in whatever order, also when the connection reports being
    connected more than once: the promise is fulfilled only after the event
    was sent and the connection closed, the connection is closed only
    after the event was sent and never more often than the event was sent,
    and when the run ends the timer is not armed any more. *)
Theorem WriteOnceToRelay_order_of_effects
  (address : string) (ev : TaggedRawEvent) (events : list (Z * WriteEvent)) :
  let w := WriteOnceToRelay address ev events in
  (promise w = Fulfilled ->
   In (SendAsync address ev) (w_log w) /\ In (Close address) (w_log w)) /\
  (In (Close address) (w_log w) -> In (SendAsync address ev) (w_log w)) /\
  closes (w_log w) <= sends (w_log w) /\
  timer w = None.
Proof.
  intros w.
  assert (Hrun : forall evs w0, write_order address ev w0 ->
                                write_order address ev (fold_left write_step evs w0)).
  { induction evs as [|te evs IH]; intros w0 H0; cbn [fold_left]; auto.
    apply IH. now apply write_order_step. }
  assert (Hstart : write_order address ev (WriteOnce_start address ev)).
  { unfold write_order. cbn.
    split; [reflexivity|]. split; [reflexivity|].
    split; [congruence|]. split; [discriminate|].
    split; [|reflexivity].
    intros [H|[H|[]]]; discriminate. }
  pose proof (Hrun events _ Hstart) as H.
  subst w. unfold WriteOnceToRelay. revert H.
  generalize (fold_left write_step events (WriteOnce_start address ev)).
  intros [a' e' tm p st aw lg]. unfold write_order. cbn.
  intros (-> & -> & H3 & H4 & H5 & H6).
  unfold fire_timer, settle. cbn.
  destruct tm; cbn; [destruct p; cbn|]; repeat split; auto; try discriminate;
    try (intros HF; now apply H4); try (unfold sends, closes in *; lia);
    now apply H4.
Qed.

Example write_two_connections :
  w_log (WriteOnceToRelay "wss://relay.example/" ex_event
           [(100%Z, Connected); (200%Z, Connected); (300%Z, Sent); (400%Z, Sent)])
  = [NewConnection "wss://relay.example/" {| read := false; write := true |} true;
     Connect "wss://relay.example/";
     SendAsync "wss://relay.example/" ex_event;
     SendAsync "wss://relay.example/" ex_event;
     Close "wss://relay.example/"; Close "wss://relay.example/"].
Proof. reflexivity. Qed.

(** X17. A connection that reports being connected only after the timer
    has run still has the event sent on it and is closed once the send is
    acknowledged, although the caller has seen the call rejected at
    5000 ms; a connection that never reports being connected is never
    closed by this function. *)
Theorem WriteOnceToRelay_late_connection
  (address : string) (ev : TaggedRawEvent) (tc ts : Z) :
  (write_timeout <= tc)%Z ->
  (promise (WriteOnceToRelay address ev [(tc, Connected); (ts, Sent)]) = Rejected /\
   settledAt (WriteOnceToRelay address ev [(tc, Connected); (ts, Sent)])
   = Some write_timeout /\
   w_log (WriteOnceToRelay address ev [(tc, Connected); (ts, Sent)])
   = [NewConnection address {| read := false; write := true |} true;
      Connect address; SendAsync address ev; Close address]) /\
  w_log (WriteOnceToRelay address ev [])
  = [NewConnection address {| read := false; write := true |} true; Connect address].
Proof.
  intros Htc. split; [|reflexivity].
  unfold WriteOnceToRelay. cbn [fold_left].
  assert (E : write_step (WriteOnce_start address ev) (tc, Connected)
              = on_connected (fire_timer (WriteOnce_start address ev))).
  { unfold write_step, advance. cbn [timer WriteOnce_start].
    apply Z.leb_le in Htc. now rewrite Htc. }
  rewrite E. cbn. auto.
Qed.

Lemma WriteOnceToRelay_late_connection_witness :
  In (SendAsync "wss://relay.example/" ex_event)
    (w_log (WriteOnceToRelay "wss://relay.example/" ex_event
              [(6000%Z, Connected); (6100%Z, Sent)])).
Proof.
  destruct (WriteOnceToRelay_late_connection "wss://relay.example/" ex_event 6000 6100)
    as ((_ & _ & H) & _).
  - discriminate.
  - rewrite H. simpl. auto.
Defined.

(** ** Toast notifications *)

(** X18. Lifetime of a toast.  After a push at clock reading [now], a
    tick at clock reading [tick] keeps the new toast exactly when its
    expiry is later than [tick]; the expiry is the one the toast came with
    (also when that is 0) and [now + 3] when it came with none.  The toasts
    pushed before are treated as if the new one had not been pushed, and
    the new one stays last. *)
Theorem toast_lifetime (now tick : Z) (n : Toaster.ToastNotification)
  (t : Toaster.ToasterSlots) :
  Toaster.takeSnapshot (Toaster.eatToast tick (Toaster.push now n t))
  = Toaster.takeSnapshot (Toaster.eatToast tick t)
    ++ (if (match Toaster.expire n with Some e => e | None => now + 3 end >? tick)%Z
        then [Toaster.with_default_expire now n] else []).
Proof.
  unfold Toaster.takeSnapshot, Toaster.eatToast, Toaster.push. cbn.
  rewrite filter_app. cbn. unfold Toaster.fresh at 2. cbn.
  destruct (Toaster.expire n); reflexivity.
Qed.

Lemma fresh_max (t1 t2 : Z) (a : Toaster.ToastNotification) :
  Toaster.fresh t2 a && Toaster.fresh t1 a = Toaster.fresh (Z.max t1 t2) a.
Proof.
  unfold Toaster.fresh. destruct (Toaster.expire a) as [e|].
  - destruct (e >? t2)%Z eqn:E2, (e >? t1)%Z eqn:E1, (e >? Z.max t1 t2)%Z eqn:E;
      try reflexivity; rewrite ?Z.gtb_ltb in *;
      rewrite ?Z.ltb_lt, ?Z.ltb_ge in *; lia.
  - destruct (0 >? t2)%Z eqn:E2, (0 >? t1)%Z eqn:E1, (0 >? Z.max t1 t2)%Z eqn:E;
      try reflexivity; rewrite ?Z.gtb_ltb in *;
      rewrite ?Z.ltb_lt, ?Z.ltb_ge in *; lia.
Qed.

Lemma filter_filter {A} (f g : A -> bool) (l : list A) :
  filter f (filter g l) = filter (fun x => f x && g x) l.
Proof.
  induction l as [|x l IH]; cbn; auto.
  destruct (g x); cbn; [destruct (f x); cbn; now rewrite IH|].
  rewrite andb_false_r. exact IH.
Qed.

(** X19. Two ticks in a row leave the toasts that one tick at the later
    of the two clock readings leaves, in the same order; in particular a
    second tick at the same reading removes nothing. *)
Theorem eatToast_twice (t1 t2 : Z) (t : Toaster.ToasterSlots) :
  Toaster.takeSnapshot (Toaster.eatToast t2 (Toaster.eatToast t1 t))
  = Toaster.takeSnapshot (Toaster.eatToast (Z.max t1 t2) t).
Proof.
  unfold Toaster.takeSnapshot, Toaster.eatToast. cbn.
  rewrite filter_filter. apply filter_ext. intros a. apply fresh_max.
Qed.

(** X20. Every toast on the stack of a store built by [push] and ticks
    has an expiry, so the fallback [?? 0] of the tick never applies; and
    right after a tick at clock reading [now] every toast on the stack
    expires later than [now]. *)
Theorem toasts_have_expiry (t : Toaster.ToasterSlots) (now : Z) :
  Toaster.reachable t ->
  (forall a, In a (Toaster.stack t) -> exists e, Toaster.expire a = Some e) /\
  (forall a, In a (Toaster.stack (Toaster.eatToast now t)) ->
             exists e, Toaster.expire a = Some e /\ (now < e)%Z).
Proof.
  intros Hr.
  assert (H : forall a, In a (Toaster.stack t) -> exists e, Toaster.expire a = Some e).
  { induction Hr as [|now' n t Hr IH|now' t Hr IH]; cbn.
    - intros a [].
    - intros a Hin. apply in_app_or in Hin. destruct Hin as [Hin|[<-|[]]]; auto.
      unfold Toaster.with_default_expire. cbn.
      destruct (Toaster.expire n); eauto.
    - intros a Hin. apply filter_In in Hin. apply IH. tauto. }
  split; [exact H|].
  intros a Hin. cbn in Hin. apply filter_In in Hin. destruct Hin as [Hin Hf].
  destruct (H a Hin) as [e He]. exists e. split; [exact He|].
  unfold Toaster.fresh in Hf. rewrite He in Hf.
  rewrite Z.gtb_ltb in Hf. now apply Z.ltb_lt.
Qed.

Lemma toasts_have_expiry_witness :
  exists e,
    Toaster.expire
      (Toaster.with_default_expire 100
         {| Toaster.element := "saved"; Toaster.expire := None;
            Toaster.icon := None |}) = Some e.
Proof.
  destruct (toasts_have_expiry
              (Toaster.push 100
                 {| Toaster.element := "saved"; Toaster.expire := None;
                    Toaster.icon := None |} Toaster.new_ToasterSlots) 0%Z)
    as [H _].
  - repeat constructor.
  - apply H. cbn. now left.
Defined.

Example toast_default_expiry :
  Toaster.takeSnapshot
    (Toaster.eatToast 102
       (Toaster.push 100
          {| Toaster.element := "saved"; Toaster.expire := None; Toaster.icon := None |}
          Toaster.new_ToasterSlots))
  = [{| Toaster.element := "saved"; Toaster.expire := Some 103%Z;
        Toaster.icon := None |}].
Proof. reflexivity. Qed.

Example toast_gone_at_expiry :
  Toaster.takeSnapshot
    (Toaster.eatToast 103
       (Toaster.push 100
          {| Toaster.element := "saved"; Toaster.expire := None; Toaster.icon := None |}
          Toaster.new_ToasterSlots)) = [].
Proof. reflexivity. Qed.

Example toast_render_default_icon :
  Toaster.render
    [{| Toaster.element := "saved"; Toaster.expire := Some 103%Z; Toaster.icon := None |};
     {| Toaster.element := "zap"; Toaster.expire := Some 104%Z;
        Toaster.icon := Some "zap" |}]
  = [("bell", "saved"); ("zap", "zap")].
Proof. reflexivity. Qed.

(** ** Profile cache *)

Lemma get_app {V} (k : string) (a b : JsMap.t V) :
  JsMap.get k (a ++ b)
  = match JsMap.get k a with Some v => Some v | None => JsMap.get k b end.
Proof.
  induction a as [|[k' v'] a IH]; cbn; auto.
  destruct (String.eqb k k'); auto.
Qed.

Lemma get_set (k k0 : string) {V} (v0 : V) (m : JsMap.t V) :
  JsMap.get k (JsMap.set k0 v0 m)
  = if String.eqb k k0 then Some v0 else JsMap.get k m.
Proof.
  destruct (String.eqb k k0) eqn:E.
  - apply String.eqb_eq in E. subst. apply get_set_eq.
  - apply String.eqb_neq in E. apply get_set_ne. congruence.
Qed.

(** A property copied by a spread wins over the one already there, and
    among copied properties with the same key the last one wins. *)
Lemma get_spread_fold (k : string) (l : list (string * Cache.JsValue))
  (o : JsMap.t Cache.JsValue) :
  JsMap.get k (fold_left (fun o kv => JsMap.set (fst kv) (snd kv) o) l o)
  = match JsMap.get k (rev l) with
    | Some v => Some v
    | None => JsMap.get k o
    end.
Proof.
  revert o. induction l as [|[k0 v0] l IH]; intros o; cbn [fold_left rev]; auto.
  rewrite IH, get_app. cbn [fst snd JsMap.get].
  destruct (JsMap.get k (rev l)); auto.
  rewrite get_set. destruct (String.eqb k k0); reflexivity.
Qed.

(** The properties of the object literal, read off key by key. *)
Lemma mapEventToProfile_fields_aux
  (JSON_parse : string -> option Cache.JsValue)
  (hexToBech32 : string -> string -> option string)
  (now : Z) (ev : Cache.RawEvent) (data : Cache.JsValue) (npub : string) :
  JSON_parse (Cache.content ev) = Some data ->
  hexToBech32 "npub" (Cache.pubkey ev) = Some npub ->
  exists profile,
    Cache.mapEventToProfile JSON_parse hexToBech32 now ev = Some profile /\
    JsMap.get "loaded" profile = Some (Cache.JNum now) /\
    JsMap.get "emojis" profile = Some (Cache.emojis_of (Cache.tags ev)) /\
    forall k, k <> "loaded" -> k <> "emojis" ->
      JsMap.get k profile
      = match JsMap.get k (rev (Cache.own_properties data)) with
        | Some v => Some v
        | None =>
            JsMap.get k [("pubkey", Cache.JStr (Cache.pubkey ev));
                         ("npub", Cache.JStr npub);
                         ("created", Cache.JNum (Cache.created_at ev))]
        end.
Proof.
  intros Hp Hh. unfold Cache.mapEventToProfile. rewrite Hp, Hh.
  eexists. split; [reflexivity|]. split; [|split].
  - rewrite get_set. cbn [String.eqb Ascii.eqb Bool.eqb].
    change (String.eqb "loaded" "emojis") with false. cbn iota.
    apply get_set_eq.
  - apply get_set_eq.
  - intros k Hl He.
    rewrite !get_set.
    apply String.eqb_neq in Hl, He. rewrite Hl, He.
    unfold Cache.spread. apply get_spread_fold.
Qed.

(** X21. Which source each field of a profile comes from.  [loaded] is
    always the clock reading and [emojis] always the filtered tags of the
    event, whatever the event content says.  Every other key is taken from
    the parsed content when the content has it (the last occurrence wins),
    and otherwise from the event: so a content with a [pubkey], [npub] or
    [created] key replaces the values derived from the event. *)
Theorem mapEventToProfile_field_sources
  (JSON_parse : string -> option Cache.JsValue)
  (hexToBech32 : string -> string -> option string)
  (now : Z) (ev : Cache.RawEvent) (data : Cache.JsValue) (npub : string) :
  JSON_parse (Cache.content ev) = Some data ->
  hexToBech32 "npub" (Cache.pubkey ev) = Some npub ->
  exists profile,
    Cache.mapEventToProfile JSON_parse hexToBech32 now ev = Some profile /\
    JsMap.get "loaded" profile = Some (Cache.JNum now) /\
    JsMap.get "emojis" profile = Some (Cache.emojis_of (Cache.tags ev)) /\
    forall k, k <> "loaded" -> k <> "emojis" ->
      JsMap.get k profile
      = match JsMap.get k (rev (Cache.own_properties data)) with
        | Some v => Some v
        | None =>
            JsMap.get k [("pubkey", Cache.JStr (Cache.pubkey ev));
                         ("npub", Cache.JStr npub);
                         ("created", Cache.JNum (Cache.created_at ev))]
        end.
Proof.
  intros Hp Hh.
  exact (mapEventToProfile_fields_aux JSON_parse hexToBech32 now ev data npub Hp Hh).
Qed.

Lemma mapEventToProfile_field_sources_witness :
  exists profile,
    Cache.mapEventToProfile
      (fun _ => Some (Cache.JObj [("name", Cache.JStr "alice");
                                  ("pubkey", Cache.JStr "00ff");
                                  ("loaded", Cache.JNum 1)]))
      (fun _ hex => Some ("npub1" ++ hex)%string) 5000
      {| Cache.content := "{..}"; Cache.pubkey := "abcd"; Cache.created_at := 17;
         Cache.tags := None |} = Some profile /\
    JsMap.get "pubkey" profile = Some (Cache.JStr "00ff") /\
    JsMap.get "loaded" profile = Some (Cache.JNum 5000).
Proof.
  destruct (mapEventToProfile_field_sources
              (fun _ => Some (Cache.JObj [("name", Cache.JStr "alice");
                                          ("pubkey", Cache.JStr "00ff");
                                          ("loaded", Cache.JNum 1)]))
              (fun _ hex => Some ("npub1" ++ hex)%string) 5000
              {| Cache.content := "{..}"; Cache.pubkey := "abcd"; Cache.created_at := 17;
                 Cache.tags := None |}
              (Cache.JObj [("name", Cache.JStr "alice");
                           ("pubkey", Cache.JStr "00ff");
                           ("loaded", Cache.JNum 1)])
              "npub1abcd" eq_refl eq_refl)
    as (profile & Hp & Hl & _ & Hk).
  exists profile. split; [exact Hp|]. split; [|exact Hl].
  rewrite (Hk "pubkey"); [reflexivity | discriminate | discriminate].
Defined.

Lemma is_emoji_tag_iff (t : list string) :
  Cache.is_emoji_tag t = true <-> exists a b, t = ["emoji"; a; b].
Proof.
  unfold Cache.is_emoji_tag. split.
  - intros H. apply andb_true_iff in H. destruct H as [H1 H2].
    destruct t as [|x [|a [|b [|c t]]]]; try discriminate.
    apply String.eqb_eq in H1. subst. eauto.
  - intros (a & b & ->). reflexivity.
Qed.

(** X22. The [emojis] field lists, in the order of the event, exactly the
    tags that have three elements and start with ["emoji"]; an event
    without tags gives [undefined]. *)
Theorem emojis_are_the_emoji_triples (ts : list (list string)) :
  (exists kept,
      Cache.emojis_of (Some ts)
      = Cache.JArr (map (fun t => Cache.JArr (map Cache.JStr t)) kept) /\
      kept = filter Cache.is_emoji_tag ts /\
      forall t, In t kept <-> In t ts /\ exists a b, t = ["emoji"; a; b]) /\
  Cache.emojis_of None = Cache.JUndefined.
Proof.
  split; [|reflexivity].
  exists (filter Cache.is_emoji_tag ts).
  split; [reflexivity|]. split; [reflexivity|].
  intros t. rewrite filter_In, is_emoji_tag_iff. reflexivity.
Qed.

(** X23. [mapEventToProfile] returns a profile exactly when the content
    parses and the key encodes; the profile then has all of [pubkey],
    [npub], [created], [loaded] and [emojis].  Otherwise it returns
    nothing: there is no partial profile. *)
Theorem mapEventToProfile_complete_or_nothing
  (JSON_parse : string -> option Cache.JsValue)
  (hexToBech32 : string -> string -> option string)
  (now : Z) (ev : Cache.RawEvent) :
  (Cache.mapEventToProfile JSON_parse hexToBech32 now ev = None <->
   JSON_parse (Cache.content ev) = None \/
   hexToBech32 "npub" (Cache.pubkey ev) = None) /\
  forall profile,
    Cache.mapEventToProfile JSON_parse hexToBech32 now ev = Some profile ->
    forall k, In k ["pubkey"; "npub"; "created"; "loaded"; "emojis"] ->
              JsMap.get k profile <> None.
Proof.
  split.
  - unfold Cache.mapEventToProfile.
    destruct (JSON_parse (Cache.content ev)); [|tauto].
    destruct (hexToBech32 "npub" (Cache.pubkey ev)); [|tauto].
    split; [discriminate | intros [H|H]; discriminate].
  - intros profile Hp k Hk.
    destruct (JSON_parse (Cache.content ev)) as [data|] eqn:Ed.
    2:{ unfold Cache.mapEventToProfile in Hp. rewrite Ed in Hp. discriminate. }
    destruct (hexToBech32 "npub" (Cache.pubkey ev)) as [npub|] eqn:Eh.
    2:{ unfold Cache.mapEventToProfile in Hp. rewrite Ed, Eh in Hp. discriminate. }
    destruct (mapEventToProfile_fields_aux JSON_parse hexToBech32 now ev data npub Ed Eh)
      as (p & Hp' & Hl & He & Hother).
    rewrite Hp in Hp'. injection Hp' as <-.
    cbn in Hk. destruct Hk as [<-|[<-|[<-|[<-|[<-|[]]]]]].
    + rewrite Hother by discriminate.
      destruct (JsMap.get "pubkey" _); discriminate.
    + rewrite Hother by discriminate.
      destruct (JsMap.get "npub" _); discriminate.
    + rewrite Hother by discriminate.
      destruct (JsMap.get "created" _); discriminate.
    + rewrite Hl. discriminate.
    + rewrite He. discriminate.
Qed.
